(** * Web_Scraper: text cleaning, chunk filtering, file output and summary

    A shallow embedding of [src/scraper.py] and [src/utils.py].

    Python strings are sequences of Unicode code points: a character is a
    code point ([N]) and a string a list of them, so [len] is [length].
    What the Python runtime and third-party packages decide (Unicode case
    mapping, the word-character table, the browser, html2text, the
    langchain splitters) enters as a Section variable. *)

From Stdlib Require Import ZArith NArith List Lia Bool String Ascii.
From stdpp Require Import base option list gmap strings fin_maps.

Local Open Scope N_scope.

(** ** Characters and strings *)

Abbreviation char := N.
Abbreviation str := (list N).

(** A Python string literal over ASCII, as the source writes it. *)
Definition u (s : string) : str :=
  map N_of_ascii (list_ascii_of_string s).

Definition LF : char := 10.
Definition TAB : char := 9.
Definition DQUOTE : char := 34.
Definition STAR : char := 42.
Definition HYPHEN : char := 45.
Definition DOT : char := 46.
Definition UNDERSCORE : char := 95.
Definition PIPE : char := 124.

Definition in_range (lo hi c : char) : bool := (lo <=? c) && (c <=? hi).

(** [str.isspace] of one character, which is also [\s] of [re] on [str]
    patterns: CPython's [_PyUnicode_IsWhitespace]. *)
Definition isspace (c : char) : bool :=
  in_range 9 13 c || in_range 28 32 c || (c =? 133) || (c =? 160)
  || (c =? 5760) || in_range 8192 8202 c || (c =? 8232) || (c =? 8233)
  || (c =? 8239) || (c =? 8287) || (c =? 12288).

(** [s.lstrip()], [s.rstrip()] and [s.strip()] without argument. *)
Fixpoint lstrip (s : str) : str :=
  match s with
  | c :: s' => if isspace c then lstrip s' else s
  | [] => []
  end.

Definition rstrip (s : str) : str := rev (lstrip (rev s)).

Definition strip (s : str) : str := rstrip (lstrip s).

(** [s.split(sep)] for a one-character separator: never an empty list. *)
Fixpoint split (sep : char) (s : str) : list str :=
  match s with
  | [] => [[]]
  | c :: s' =>
      if c =? sep then [] :: split sep s'
      else match split sep s' with
           | l :: ls => (c :: l) :: ls
           | [] => [[c]]
           end
  end.

(** [sep.join(ls)] for a one-character separator. *)
Fixpoint join (sep : char) (ls : list str) : str :=
  match ls with
  | [] => []
  | [l] => l
  | l :: ls' => l ++ sep :: join sep ls'
  end.

(** [s.startswith(p)] and [s.startswith((p1, ..., pn))]. *)
Fixpoint startswith1 (p s : str) : bool :=
  match p, s with
  | [], _ => true
  | a :: p', b :: s' => (a =? b) && startswith1 p' s'
  | _ :: _, [] => false
  end.

Definition startswith (ps : list str) (s : str) : bool :=
  existsb (fun p => startswith1 p s) ps.

(** [s.count(c)] for a one-character [c]. *)
Fixpoint count (c : char) (s : str) : nat :=
  match s with
  | x :: s' => (if x =? c then 1 else 0) + count c s'
  | [] => 0
  end.

(** ** The fragment of [re] the program uses

    Every pattern of the program is a concatenation of quantified
    character classes [C{lo,hi}], with [^] and [$] at the ends of some.
    Matching is Python's: leftmost, each quantifier greedy, giving back
    one character at a time when the rest of the pattern fails. *)
Inductive item : Type :=
| Bol
| Eol
| Rep (cls : char -> bool) (lo : nat) (hi : option nat).

Definition one (cls : char -> bool) : item := Rep cls 1 (Some 1%nat).
Definition opt (cls : char -> bool) : item := Rep cls 0 (Some 1%nat).
Definition star (cls : char -> bool) : item := Rep cls 0 None.
Definition plus (cls : char -> bool) : item := Rep cls 1 None.
Definition at_least (n : nat) (cls : char -> bool) : item := Rep cls n None.

Definition chr (c : char) : char -> bool := N.eqb c.
Definition lit (s : string) : list item := map (fun c => one (chr c)) (u s).

(** The number of leading characters of [s] in the class. *)
Fixpoint run (cls : char -> bool) (s : str) : nat :=
  match s with
  | c :: s' => if cls c then S (run cls s') else 0%nat
  | [] => 0%nat
  end.

Definition capped (hi : option nat) (n : nat) : nat :=
  match hi with
  | Some h => Nat.min h n
  | None => n
  end.

(** Try the continuation with [n], [n-1], ..., [lo] repetitions. *)
Fixpoint backtrack (k : nat -> option nat) (lo n : nat) : option nat :=
  if (n <? lo)%nat then None
  else match k n with
       | Some r => Some r
       | None => match n with
                 | O => None
                 | S n' => backtrack k lo n'
                 end
       end.

(** The length of the match of [p] that starts at the head of [s], if
    there is one; [bos] says that the head of [s] is the start of the
    whole subject string. [$] is the non-MULTILINE one: at the end, or
    before a final newline. *)
Fixpoint match_here (p : list item) (bos : bool) (s : str) : option nat :=
  match p with
  | [] => Some 0%nat
  | Bol :: p' => if bos then match_here p' bos s else None
  | Eol :: p' =>
      match s with
      | [] => match_here p' bos s
      | [c] => if c =? LF then match_here p' bos s else None
      | _ => None
      end
  | Rep cls lo hi :: p' =>
      backtrack
        (fun n => Nat.add n <$>
                    match_here p' (bos && (n =? 0)%nat) (drop n s))
        lo (capped hi (run cls s))
  end.

(** [re.match(p, s)] as a truth value. *)
Definition re_match (p : list item) (s : str) : bool :=
  match match_here p true s with
  | Some _ => true
  | None => false
  end.

(** [re.sub(p, repl, s)] for a pattern that matches no empty string (all
    patterns of the program: see [sub_patterns_consume]). [skip] counts
    the characters of the current match that are still to be passed. *)
Fixpoint sub_go (p : list item) (repl : str) (bos : bool) (skip : nat)
    (s : str) : str :=
  match skip with
  | S k =>
      match s with
      | [] => []
      | _ :: s' => sub_go p repl false k s'
      end
  | O =>
      match match_here p bos s with
      | Some (S k) =>
          repl ++ match s with
                  | [] => []
                  | _ :: s' => sub_go p repl false k s'
                  end
      | _ =>
          match s with
          | [] => []
          | c :: s' => c :: sub_go p repl false 0 s'
          end
      end
  end.

Definition re_sub (p : list item) (repl : str) (s : str) : str :=
  sub_go p repl true 0 s.

(** ** Exceptions

    A call that can raise returns an [outcome]; every handler of the
    program is [except Exception] or catches all, so one [Raise] is
    enough. *)
Inductive outcome (A : Type) : Type :=
| Ok (a : A)
| Raise.
Arguments Ok {A} a.
Arguments Raise {A}.

#[global] Instance outcome_ret : MRet outcome := fun A a => Ok a.
#[global] Instance outcome_bind : MBind outcome := fun A B k m =>
  match m with
  | Ok a => k a
  | Raise => Raise
  end.

(** [a or b] on strings. *)
Definition str_or (a b : str) : str :=
  match a with
  | [] => b
  | _ :: _ => a
  end.

(** ** Documents (langchain's [Document]) *)
Record Document : Type := mkDocument {
  page_content : str;
  metadata : gmap string str
}.

(** * utils.py *)

Definition control_char (c : char) : bool :=
  in_range 0 8 c || (c =? 11) || (c =? 12) || in_range 14 31 c
  || in_range 127 159 c.

Definition clean_text (text : str) : str :=
  match text with
  | [] => []
  | _ :: _ =>
      let text := re_sub [plus isspace] (u " ") text in
      let text := re_sub [one control_char] [] text in
      let text :=
        re_sub [one (chr LF); star isspace; one (chr LF); star isspace;
                plus (chr LF)] [LF; LF] text in
      let text := re_sub [plus (chr TAB)] (u " ") text in
      let text := re_sub [at_least 3 (chr DOT)] (u "...") text in
      let text := re_sub [at_least 3 (chr HYPHEN)] (u "---") text in
      strip text
  end.

(** One element of the JSON array that [save_docs_to_json] dumps. *)
Record chunk_json : Type := mkChunkJson {
  json_page_content : str;
  json_metadata : gmap string str;
  json_content_length : nat
}.

Fixpoint cleaned_docs (docs : list Document) : list chunk_json :=
  match docs with
  | [] => []
  | doc :: rest =>
      let cleaned_content := clean_text (page_content doc) in
      match cleaned_content with
      | _ :: _ =>
          if (50 <? length cleaned_content)%nat
          then {| json_page_content := cleaned_content;
                  json_metadata := metadata doc;
                  json_content_length := length cleaned_content |}
               :: cleaned_docs rest
          else cleaned_docs rest
      | [] => cleaned_docs rest
      end
  end.

(** The file system: [os.makedirs(os.path.dirname(filename),
    exist_ok=True)], and opening [filename] for writing and dumping the
    array into it. *)
Record file_io : Type := {
  makedirs_dirname : str -> outcome unit;
  open_and_dump : str -> list chunk_json -> outcome unit
}.

(** The array written to [filename] ([None] when the dump raised) and the
    returned count; [os.makedirs] is outside the [try]. *)
Definition save_docs_to_json (io : file_io) (docs : list Document)
    (filename : str) : outcome (option (list chunk_json) * nat) :=
  _ ← makedirs_dirname io filename;
  let cleaned := cleaned_docs docs in
  match open_and_dump io filename cleaned with
  | Ok _ => Ok (Some cleaned, length cleaned)
  | Raise => Ok (None, 0%nat)
  end.

Definition unsafe_char (c : char) : bool :=
  existsb (N.eqb c) (DQUOTE :: u "/:*?<>|").

Definition sanitize_filename (url : str) : str :=
  let sanitized :=
    re_sub (Bol :: lit "http" ++ [opt (chr 115)] ++ lit "://") [] url in
  let sanitized := re_sub [one unsafe_char] (u "_") sanitized in
  take 100 sanitized.

(** *** Floats

    [avg_chunk_length] is the one float of the program. A finite
    non-negative binary64 number is [mant * 2 ^ expo]; [true_div] is
    [a / b] on integers [a >= 0] and [b > 0], and [round2] is
    [round(x, 2)], both correctly rounded, ties to even, as CPython
    computes them. The exponent has no upper bound here: sums of string
    lengths are far below the largest float. *)
Record float64 : Type := mkFloat { mant : Z; expo : Z }.

(** [num / den] rounded to the nearest integer, ties to even. *)
Definition rne (num den : Z) : Z :=
  let q := (num / den)%Z in
  let r := (num mod den)%Z in
  if (2 * r <? den)%Z then q
  else if (den <? 2 * r)%Z then (q + 1)%Z
  else if Z.even q then q else (q + 1)%Z.

Definition scaled (a b e : Z) : Z * Z :=
  if (0 <=? e)%Z then (a, (b * 2 ^ e)%Z) else ((a * 2 ^ (- e))%Z, b).

Definition true_div (a b : Z) : float64 :=
  if (a =? 0)%Z then mkFloat 0 0
  else
    let e0 := (Z.log2 a - Z.log2 b - 53)%Z in
    let e1 :=
      if (fst (scaled a b e0) / snd (scaled a b e0) <? 2 ^ 53)%Z
      then e0 else (e0 + 1)%Z in
    let e := Z.max e1 (-1074) in
    let m := rne (fst (scaled a b e)) (snd (scaled a b e)) in
    if (m =? 2 ^ 53)%Z then mkFloat (2 ^ 52) (e + 1) else mkFloat m e.

Definition round2 (x : float64) : float64 :=
  let h := rne (fst (scaled (100 * mant x) 1 (- expo x)))
               (snd (scaled (100 * mant x) 1 (- expo x))) in
  true_div h 100.

(** [x] is exactly the rational [num / den]. *)
Definition float_is (x : float64) (num den : Z) : Prop :=
  (fst (scaled (mant x) 1 (- expo x)) * den
   = num * snd (scaled (mant x) 1 (- expo x)))%Z.

Record content_stats : Type := {
  avg_chunk_length : float64;
  min_chunk_length : nat;
  max_chunk_length : nat;
  total_characters : nat
}.

Record summary : Type := {
  total_documents : nat;
  unique_sources : nat;
  sources : list str;
  stats : content_stats;
  ready_for_rag : bool;
  embedding_compatible : bool
}.

(** The returned dict: either the one with the key [error] or the
    summary. [sources] is [list(set(...))]: Python does not specify its
    order, which can change with the order of insertion. The model lists
    the sources in the order of [elements]; the properties below speak of
    this list only through its length and its elements, never through
    their order. *)
Inductive rag_summary : Type :=
| SummaryError (message : string)
| Summary (s : summary).

(** [chunk.metadata.get('source', 'Unknown')]. *)
Definition source_of (chunk : Document) : str :=
  default (u "Unknown") (metadata chunk !! "source"%string).

(** [sum], and [min] and [max] of a list with head [x]. *)
Definition py_sum (l : list nat) : nat := foldr Nat.add 0%nat l.
Definition min_from (x : nat) (l : list nat) : nat := foldl Nat.min x l.
Definition max_from (x : nat) (l : list nat) : nat := foldl Nat.max x l.

Definition create_rag_summary (all_chunks : list Document) : rag_summary :=
  match all_chunks with
  | [] => SummaryError "No chunks available"
  | first :: others =>
      let total_chunks := length all_chunks in
      let sources : gset str := list_to_set (map source_of all_chunks) in
      let content_lengths := map (fun chunk => length (page_content chunk)) all_chunks in
      let avg_length :=
        true_div (Z.of_nat (py_sum content_lengths))
                 (Z.of_nat (length content_lengths)) in
      Summary {|
        total_documents := total_chunks;
        unique_sources := size sources;
        sources := elements sources;
        stats := {|
          avg_chunk_length := round2 avg_length;
          min_chunk_length :=
            min_from (length (page_content first))
              (map (fun chunk => length (page_content chunk)) others);
          max_chunk_length :=
            max_from (length (page_content first))
              (map (fun chunk => length (page_content chunk)) others);
          total_characters := py_sum content_lengths |};
        ready_for_rag := true;
        embedding_compatible := true |}
  end.

(** * scraper.py *)

(** [urllib.robotparser.RobotFileParser] after [set_url]: [read] fetches
    and parses the file; [can_fetch] is the answer of the parser once
    [read] has returned. *)
Record RobotFileParser : Type := {
  read : outcome unit;
  can_fetch : str -> str -> outcome bool
}.

(** The page that playwright has loaded. *)
Record Page : Type := {
  locator_count : str -> nat;
  first_inner_html : str -> outcome str;
  inner_html : str -> outcome str;
  title : outcome str;
  get_attribute : str -> str -> outcome (option str);
  close : outcome unit
}.

Definition CHUNK_SIZE : nat := 1000.
Definition CHUNK_OVERLAP : nat := 200.

Definition content_selectors : list str :=
  [u "article"; u "main";
   u "[role=" ++ [DQUOTE] ++ u "main" ++ [DQUOTE] ++ u "]";
   u "#main"; u "#content"; u ".main"; u ".content"; u ".post"; u ".entry";
   u ".article-content"; u ".post-content"; u ".entry-content";
   u ".page-content"].

Definition meta_description : str :=
  u "meta[name=" ++ [DQUOTE] ++ u "description" ++ [DQUOTE] ++ u "]".

Definition headers_to_split_on : list (str * string) :=
  [(u "#", "H1"%string); (u "##", "H2"%string); (u "###", "H3"%string)].

Definition separators : list str := [[LF; LF]; [LF]; u ". "; u " "; []].

Definition nav_markers : list str :=
  [u "menu"; u "nav"; u "skip to"; u "home |"; u "| home"].

Section Scraper.

(** [str.lower], and the characters that [\w] matches. *)
Variable lower : str -> str.
Variable is_word : char -> bool.

(** [urlparse(url)] as the pair of [scheme] and [netloc]. *)
Variable urlparse : str -> str * str.
(** The parser that [RobotFileParser()] gives for a robots URL. *)
Variable robot_file_parser : str -> RobotFileParser.
(** Launching the browser and [page.goto(url, ...)]. *)
Variable goto : str -> outcome Page.
(** [html2text.HTML2Text().handle] with the options of the source. *)
Variable handle : str -> outcome str.
(** [MarkdownHeaderTextSplitter(headers_to_split_on, strip_headers)
    .split_text]. *)
Variable markdown_split_text :
  list (str * string) -> bool -> str -> outcome (list Document).
(** [RecursiveCharacterTextSplitter(chunk_size, chunk_overlap,
    separators).split_text]. *)
Variable recursive_split_text :
  nat -> nat -> list str -> str -> outcome (list str).

Definition robots_url (url : str) : str :=
  let parsed_url := urlparse url in
  fst parsed_url ++ u "://" ++ snd parsed_url ++ u "/robots.txt".

Definition check_robots_txt (url : str) : bool :=
  let parser := robot_file_parser (robots_url url) in
  match (_ ← read parser; can_fetch parser (u "*") url) with
  | Ok is_allowed => is_allowed
  | Raise => true
  end.

(** The test of the loop of [clean_markdown_content]: the line is
    skipped. *)
Definition skipped (line : str) : bool :=
  (length line <? 3)%nat
  || startswith nav_markers (lower line)
  || re_match [Bol; plus (fun c => isspace c || (c =? PIPE) || (c =? HYPHEN)); Eol] line
  || (5 <? count PIPE line)%nat.

Fixpoint clean_lines (lines : list str) : list str :=
  match lines with
  | [] => []
  | line :: rest =>
      let line := strip line in
      if skipped line then clean_lines rest else line :: clean_lines rest
  end.

Definition clean_markdown_content (markdown_text : str) : str :=
  match markdown_text with
  | [] => []
  | _ :: _ =>
      let markdown_text := re_sub [at_least 3 (chr LF)] [LF; LF] markdown_text in
      let markdown_text := re_sub [at_least 3 (chr STAR)] (u "**") markdown_text in
      let markdown_text := re_sub [at_least 3 (chr UNDERSCORE)] (u "__") markdown_text in
      let lines := split LF markdown_text in
      join LF (clean_lines lines)
  end.

(** The loop over [content_selectors]: content and selector of the
    first selector that matches. *)
Fixpoint select_content (page : Page) (selectors : list str)
    : outcome (str * option str) :=
  match selectors with
  | [] => Ok ([], None)
  | selector :: rest =>
      if (0 <? locator_count page selector)%nat
      then html_content ← first_inner_html page selector;
           Ok (html_content, Some selector)
      else select_content page rest
  end.

(** The body of [with sync_playwright() as p]: HTML, selector, title
    and description. *)
Definition fetch (url : str) : outcome (str * str * str * str) :=
  page ← goto url;
  found ← select_content page content_selectors;
  extracted ←
    match found with
    | ((_ :: _) as html_content, Some selector) => Ok (html_content, selector)
    | _ => html_content ← inner_html page (u "body");
           Ok (html_content, u "body")
    end;
  page_title ← title page;
  let page_title := str_or page_title (u "No Title") in
  let page_description :=
    if (0 <? locator_count page meta_description)%nat
    then match get_attribute page meta_description (u "content") with
         | Ok (Some content) => content
         | _ => []
         end
    else [] in
  _ ← close page;
  Ok (fst extracted, snd extracted, page_title, page_description).

(** [TextSplitter.create_documents] of langchain: one document for each
    piece of each text, with a copy of the metadata of the text. *)
Fixpoint create_documents (texts : list (str * gmap string str))
    : outcome (list Document) :=
  match texts with
  | [] => Ok []
  | (text, meta) :: rest =>
      pieces ← recursive_split_text CHUNK_SIZE CHUNK_OVERLAP separators text;
      more ← create_documents rest;
      Ok (map (fun piece => mkDocument piece meta) pieces ++ more)
  end.

Definition split_documents (docs : list Document) : outcome (list Document) :=
  create_documents (map (fun doc => (page_content doc, metadata doc)) docs).

Definition base_metadata (url page_title page_description selector_used : str)
    : gmap string str :=
  {[ "source"%string := url;
     "title"%string := page_title;
     "description"%string := page_description;
     "selector_used"%string := selector_used;
     "content_type"%string := u "markdown" ]}.

(** One turn of the loop over [md_header_splits], up to the call of
    [split_documents]: the metadata of [split] after the updates. *)
Definition annotate (base : gmap string str) (split : Document) : Document :=
  let meta := base ∪ metadata split in
  let header_info :=
    str_or (default [] (meta !! "Header 1"%string))
           (default [] (meta !! "Header 2"%string)) in
  match header_info with
  | _ :: _ => mkDocument (page_content split) (<["section"%string := header_info]> meta)
  | [] => mkDocument (page_content split) meta
  end.

Fixpoint header_chunks (base : gmap string str) (md_header_splits : list Document)
    : outcome (list Document) :=
  match md_header_splits with
  | [] => Ok []
  | split :: rest =>
      further_splits ← split_documents [annotate base split];
      final_chunks ← header_chunks base rest;
      Ok (further_splits ++ final_chunks)
  end.

(** The test of the final filter on the stripped content. *)
Definition valid_content (clean_content : str) : bool :=
  (50 <? length clean_content)%nat
  && negb (re_match [Bol; star (fun c => isspace c || negb (is_word c)); Eol]
             clean_content).

Fixpoint valid_chunks (chunks : list Document) : list Document :=
  match chunks with
  | [] => []
  | chunk :: rest =>
      let clean_content := strip (page_content chunk) in
      if valid_content clean_content
      then mkDocument clean_content (metadata chunk) :: valid_chunks rest
      else valid_chunks rest
  end.

(** The end of [scrape_and_process_url], from the chunks (or the
    exception of the splitter) to the returned value. *)
Definition filtered (chunks : outcome (list Document)) : option (list Document) :=
  match chunks with
  | Ok chunks =>
      match valid_chunks chunks with
      | [] => None
      | (_ :: _) as valid => Some valid
      end
  | Raise => None
  end.

(** From the cleaned markdown to the chunks before the final filter. *)
Definition chunk_markdown (base : gmap string str) (markdown_content : str)
    : outcome (list Document) :=
  let md_header_splits :=
    match markdown_split_text headers_to_split_on false markdown_content with
    | Ok splits => splits
    | Raise => []
    end in
  match md_header_splits with
  | _ :: _ => header_chunks base md_header_splits
  | [] => create_documents [(markdown_content, base)]
  end.

(** The part of [scrape_and_process_url] inside [try]. *)
Definition scrape_body (url : str) : outcome (option (list Document)) :=
  fetched ← fetch url;
  let '(html_content, selector_used, page_title, page_description) := fetched in
  match html_content with
  | [] => Ok None
  | _ :: _ =>
      markdown_content ← handle html_content;
      let markdown_content := clean_markdown_content markdown_content in
      if (length (strip markdown_content) =? 0)%nat
         || (length (strip markdown_content) <? 100)%nat
      then Ok None
      else
        chunks ← chunk_markdown
                   (base_metadata url page_title page_description selector_used)
                   markdown_content;
        match valid_chunks chunks with
        | [] => Ok None
        | (_ :: _) as valid => Ok (Some valid)
        end
  end.

(** [None] is Python's [None]. *)
Definition scrape_and_process_url (url : str) : option (list Document) :=
  if check_robots_txt url
  then match scrape_body url with
       | Ok result => result
       | Raise => None
       end
  else None.

End Scraper.

(** ** urllib.robotparser

    The class that [check_robots_txt] instantiates, as CPython 3.11 has
    it: [read] with its handling of HTTP errors, and [can_fetch]. The
    reading of the lines of a file into entries ([parse] and [_add_entry])
    and the functions of [urllib.parse] stay arguments. *)
Module robotparser.

(** What [urllib.request.urlopen(self.url)] does. *)
Inductive urlopen_result : Type :=
| Opened (lines : outcome (list str))
    (** a response; [f.read().decode("utf-8").splitlines()], or the
        exception that reading or decoding raises *)
| HTTPError (code : nat)
    (** it raises [urllib.error.HTTPError] with this status code *)
| Failed.
    (** it raises another exception ([URLError], a timeout, ...) *)

(** [RuleLine] and [Entry]; the fields [delay] and [req_rate] of an entry,
    which [can_fetch] does not read, are left out. *)
Record RuleLine : Type := mkRuleLine {
  path : str;
  allowance : bool
}.

Record Entry : Type := mkEntry {
  useragents : list str;
  rulelines : list RuleLine
}.

(** The fields of a [RobotFileParser] that [read] and [can_fetch] use;
    [last_checked] is [0] until [modified()] stores the time. *)
Record state : Type := mkState {
  entries : list Entry;
  default_entry : option Entry;
  disallow_all : bool;
  allow_all : bool;
  last_checked : Z
}.

(** [RobotFileParser()]. *)
Definition init : state := mkState [] None false false 0.

Definition is_star (s : str) : bool :=
  match s with
  | [c] => (c =? STAR)%N
  | _ => false
  end.

(** [needle in hay]. *)
Fixpoint is_in (needle hay : str) : bool :=
  startswith1 needle hay
  || match hay with
     | [] => false
     | _ :: hay' => is_in needle hay'
     end.

(** [RuleLine.applies_to] and [Entry.allowance]. *)
Definition rule_applies_to (line : RuleLine) (filename : str) : bool :=
  is_star (path line) || startswith1 (path line) filename.

Definition entry_allowance (entry : Entry) (filename : str) : bool :=
  match find (fun line => rule_applies_to line filename) (rulelines entry) with
  | Some line => allowance line
  | None => true
  end.

Section Parser.

(** [str.lower]. *)
Variable lower : str -> str.
Variable urlopen : str -> urlopen_result.
(** [time.time()] at the call of [modified()]. *)
Variable time : Z.
(** The entries that [parse] adds for the lines of a file: those of named
    agents in their order, and the first one that names the agent [*]. *)
Variable parse_entries : list str -> list Entry * option Entry.
(** The path of a URL as [can_fetch] compares it: unquoted, without
    scheme and host, quoted again. *)
Variable quoted_path : str -> outcome str.

(** [Entry.applies_to]. *)
Definition entry_applies_to (entry : Entry) (useragent : str) : bool :=
  let useragent := lower (hd [] (split 47 useragent)) in
  existsb (fun agent => is_star agent || is_in (lower agent) useragent)
    (useragents entry).

Definition parse (self : state) (lines : list str) : state :=
  let (named, default) := parse_entries lines in
  mkState (entries self ++ named)
    (match default_entry self with
     | Some entry => Some entry
     | None => default
     end)
    (disallow_all self) (allow_all self) time.

(** [read] returns the parser as it has changed it. *)
Definition read (self : state) (url : str) : outcome state :=
  match urlopen url with
  | HTTPError code =>
      if ((code =? 401) || (code =? 403))%nat
      then Ok (mkState (entries self) (default_entry self) true
                 (allow_all self) (last_checked self))
      else if ((400 <=? code) && (code <? 500))%nat
      then Ok (mkState (entries self) (default_entry self)
                 (disallow_all self) true (last_checked self))
      else Ok self
  | Failed => Raise
  | Opened raw =>
      lines ← raw;
      Ok (parse self lines)
  end.

Definition can_fetch (self : state) (useragent url : str) : outcome bool :=
  if disallow_all self then Ok false
  else if allow_all self then Ok true
  else if (last_checked self =? 0)%Z then Ok false
  else
    url ← quoted_path url;
    let url := str_or url (u "/") in
    match find (fun entry => entry_applies_to entry useragent) (entries self) with
    | Some entry => Ok (entry_allowance entry url)
    | None =>
        match default_entry self with
        | Some entry => Ok (entry_allowance entry url)
        | None => Ok true
        end
    end.

End Parser.

End robotparser.

(** The parser of the standard library as [check_robots_txt] uses it: a
    new [RobotFileParser] with its URL set, on which [read] is called
    once and then [can_fetch]. *)
Definition stdlib_parser (lower : str -> str)
    (urlopen : str -> robotparser.urlopen_result) (time : Z)
    (parse_entries :
       list str -> list robotparser.Entry * option robotparser.Entry)
    (quoted_path : str -> outcome str) (robots : str) : RobotFileParser :=
  {| read :=
       _ ← robotparser.read urlopen time parse_entries robotparser.init robots;
       Ok tt;
     can_fetch := fun useragent url =>
       self ← robotparser.read urlopen time parse_entries robotparser.init
                robots;
       robotparser.can_fetch lower quoted_path self useragent url |}.

(** * rag.py *)

Definition EMBEDDING_MODEL : str := u "sentence-transformers/all-MiniLM-L6-v2".
Definition VECTOR_STORE_PATH : str := u "data/vector_store".

(** The test of [create_vector_store] on one document. *)
Definition meaningful (doc : Document) : bool :=
  (30 <? length (strip (page_content doc)))%nat.

Section Rag.

(** The embedding model and the FAISS index are objects of langchain:
    building, saving, loading and searching are theirs. *)
Variable Embeddings : Type.
Variable VectorStore : Type.
(** [HuggingFaceEmbeddings(model_name, model_kwargs, encode_kwargs)]. *)
Variable HuggingFaceEmbeddings : str -> outcome Embeddings.
(** [FAISS.from_documents]. *)
Variable from_documents : list Document -> Embeddings -> outcome VectorStore.
(** [os.makedirs(save_path, exist_ok=True)] and then
    [vector_store.save_local(save_path)]. *)
Variable makedirs_save_local : VectorStore -> str -> outcome unit.
(** [FAISS.load_local(load_path, embeddings,
    allow_dangerous_deserialization=True)]. *)
Variable load_local : str -> Embeddings -> outcome VectorStore.
(** [vector_store.similarity_search(query, k=k)]. *)
Variable faiss_similarity_search :
  VectorStore -> str -> nat -> outcome (list Document).

Record RAGProcessor : Type := mkRAGProcessor {
  embeddings : Embeddings;
  vector_store : option VectorStore
}.

(** [RAGProcessor()]: [setup_embeddings] raises again what the loading of
    the model raises. *)
Definition new_processor : outcome RAGProcessor :=
  model ← HuggingFaceEmbeddings EMBEDDING_MODEL;
  Ok (mkRAGProcessor model None).

(** Each method gives the processor after the call and the returned
    value. *)
Definition create_vector_store (self : RAGProcessor) (documents : list Document)
    : RAGProcessor * option VectorStore :=
  let valid_docs := List.filter meaningful documents in
  match valid_docs with
  | [] => (self, None)
  | _ :: _ =>
      match from_documents valid_docs (embeddings self) with
      | Ok store => (mkRAGProcessor (embeddings self) (Some store), Some store)
      | Raise => (self, None)
      end
  end.

(** [path or VECTOR_STORE_PATH]. *)
Definition path_or_default (path : option str) : str :=
  match path with
  | Some ((_ :: _) as given) => given
  | _ => VECTOR_STORE_PATH
  end.

Definition save_vector_store (self : RAGProcessor) (path : option str) : bool :=
  match vector_store self with
  | None => false
  | Some store =>
      match makedirs_save_local store (path_or_default path) with
      | Ok _ => true
      | Raise => false
      end
  end.

Definition load_vector_store (self : RAGProcessor) (path : option str)
    : RAGProcessor * option VectorStore :=
  match load_local (path_or_default path) (embeddings self) with
  | Ok store => (mkRAGProcessor (embeddings self) (Some store), Some store)
  | Raise => (self, None)
  end.

Definition similarity_search (self : RAGProcessor) (query : str) (k : nat)
    : list Document :=
  match vector_store self with
  | None => []
  | Some store =>
      match faiss_similarity_search store query k with
      | Ok results => results
      | Raise => []
      end
  end.

End Rag.

Arguments mkRAGProcessor {Embeddings VectorStore} _ _.
Arguments embeddings {Embeddings VectorStore} _.
Arguments vector_store {Embeddings VectorStore} _.

(** * config.py and main.py *)

Definition URLS_TO_SCRAPE : list str :=
  [u "https://www.promptingguide.ai/";
   u "https://lilianweng.github.io/posts/2023-06-23-agent/";
   u "https://en.wikipedia.org/wiki/Large_language_model";
   u "https://en.wikipedia.org/wiki/Web_scraping";
   u "https://www.wired.com/category/science/";
   u "https://docs.docker.com/get-started/";
   u "https://www.freecodecamp.org/news/what-is-web-scraping/";
   u "https://github.blog/2023-11-08-universe-2023-copilot-transforms-github-into-the-ai-powered-developer-platform/";
   u "https://www.theverge.com/tech";
   u "https://www.joelonsoftware.com/2000/08/09/the-joel-test-12-steps-to-better-code/"].

Definition OUTPUT_DIR : str := u "data/processed".

(** [os.path.join(OUTPUT_DIR, name)]: no [name] of the program starts
    with a slash. *)
Definition in_output_dir (name : str) : str := OUTPUT_DIR ++ u "/" ++ name.

Definition test_queries : list str :=
  [u "What is web scraping?"; u "How do large language models work?";
   u "What are coding best practices?"; u "Tell me about AI agents"].

(** The variables of the loop of phase 1. *)
Record scrape_state : Type := mkScrapeState {
  all_chunks : list Document;
  successful_scrapes : nat;
  failed_scrapes : nat;
  total_chunks : nat
}.

Definition initial_state : scrape_state := mkScrapeState [] 0 0 0.

Definition failed (st : scrape_state) : scrape_state :=
  mkScrapeState (all_chunks st) (successful_scrapes st)
    (S (failed_scrapes st)) (total_chunks st).

Section Main.

(** [scrape_and_process_url], which the loop calls inside [try]. *)
Variable scrape : str -> outcome (option (list Document)).
(** The file system, as [save_docs_to_json] meets it; and
    [os.makedirs(OUTPUT_DIR, exist_ok=True)] and the writing of
    [rag_summary.json]. *)
Variable io : file_io.
Variable makedirs_output : outcome unit.
Variable dump_summary : str -> rag_summary -> outcome unit.

Variable Embeddings : Type.
Variable VectorStore : Type.
Variable HuggingFaceEmbeddings : str -> outcome Embeddings.
Variable from_documents : list Document -> Embeddings -> outcome VectorStore.
Variable makedirs_save_local : VectorStore -> str -> outcome unit.
Variable faiss_similarity_search :
  VectorStore -> str -> nat -> outcome (list Document).

(** One turn of the loop over [URLS_TO_SCRAPE]. *)
Definition process_url (st : scrape_state) (url : str) : scrape_state :=
  match scrape url with
  | Ok (Some ((_ :: _) as processed_chunks)) =>
      let safe_filename := sanitize_filename url in
      let output_path := in_output_dir (safe_filename ++ u "_chunks.json") in
      match save_docs_to_json io processed_chunks output_path with
      | Ok (_, chunks_saved) =>
          if (0 <? chunks_saved)%nat
          then mkScrapeState (all_chunks st ++ processed_chunks)
                 (S (successful_scrapes st)) (failed_scrapes st)
                 (total_chunks st + length processed_chunks)
          else failed st
      | Raise => failed st
      end
  | Ok _ => failed st
  | Raise => failed st
  end.

Definition scrape_all (urls : list str) : scrape_state :=
  foldl process_url initial_state urls.

(** Phase 2 and phase 3, inside their [try]: the returned value and the
    results of the test queries. *)
Definition rag_integration (chunks : list Document)
    : outcome (bool * list (list Document)) :=
  rag_processor ← new_processor Embeddings VectorStore HuggingFaceEmbeddings;
  let created :=
    create_vector_store Embeddings VectorStore from_documents rag_processor
      chunks in
  match snd created with
  | Some _ =>
      let rag_processor := fst created in
      let saved :=
        save_vector_store Embeddings VectorStore makedirs_save_local
          rag_processor None in
      let rag_summary := create_rag_summary chunks in
      _ ← dump_summary (in_output_dir (u "rag_summary.json")) rag_summary;
      _ ← save_docs_to_json io chunks (in_output_dir (u "all_chunks_combined.json"));
      Ok (true,
          map (fun query =>
                 similarity_search Embeddings VectorStore
                   faiss_similarity_search rag_processor query 2)
            test_queries)
  | None => Ok (false, [])
  end.

(** [run_enhanced_scraper] over a list of URLs ([URLS_TO_SCRAPE] in the
    program): [os.makedirs] is outside every [try]. *)
Definition run_scraper (urls : list str) : outcome bool :=
  _ ← makedirs_output;
  let st := scrape_all urls in
  match all_chunks st with
  | [] => Ok false
  | _ :: _ =>
      match rag_integration (all_chunks st) with
      | Ok (success, _) => Ok success
      | Raise => Ok false
      end
  end.

Definition run_enhanced_scraper : outcome bool := run_scraper URLS_TO_SCRAPE.

End Main.

(** ** Inputs of the examples

    Tables that agree with CPython on ASCII, a site whose robots.txt
    allows everything, a page with one element for every selector, and
    splitters that answer as the langchain splitters do on the texts of
    the examples (no longer than [CHUNK_SIZE]). *)
Definition ascii_lower (s : str) : str :=
  map (fun c => if in_range 65 90 c then c + 32 else c) s.

Definition ascii_word (c : char) : bool :=
  in_range 48 57 c || in_range 65 90 c || in_range 97 122 c || (c =? 95).

Definition example_url : str := u "https://example.com/page".

Definition example_urlparse (url : str) : str * str :=
  (u "https", u "example.com").

Definition allowing_parser (robots : str) : RobotFileParser :=
  {| read := Ok tt; can_fetch := fun _ _ => Ok true |}.

Definition denying_parser (robots : str) : RobotFileParser :=
  {| read := Ok tt; can_fetch := fun _ _ => Ok false |}.

Definition unreachable_parser (robots : str) : RobotFileParser :=
  {| read := Raise; can_fetch := fun _ _ => Ok false |}.

(** A host that answers the request for its robots.txt with the status
    503, and the other arguments of the parser of the standard library. *)
Definition unavailable (robots : str) : robotparser.urlopen_result :=
  robotparser.HTTPError 503.

Definition no_entries (lines : list str)
  : list robotparser.Entry * option robotparser.Entry := ([], None).

Definition page_path (url : str) : outcome str := Ok (u "/page").

Definition page_with (html : str) (url : str) : outcome Page :=
  Ok {| locator_count := fun _ => 1%nat;
        first_inner_html := fun _ => Ok html;
        inner_html := fun _ => Ok html;
        title := Ok (u "Example");
        get_attribute := fun _ _ => Ok None;
        close := Ok tt |}.

Definition handle_to (markdown : str) (html : str) : outcome str :=
  Ok markdown.

Definition split_to (splits : list Document) (headers : list (str * string))
    (strip_headers : bool) (text : str) : outcome (list Document) :=
  Ok splits.

Definition one_piece (chunk_size chunk_overlap : nat) (seps : list str)
    (text : str) : outcome (list str) :=
  Ok [text].

(** A paragraph of [n] letters [a], as HTML and as html2text renders it. *)
Definition letters (n : nat) : str := replicate n 97.
Definition letters_html (n : nat) : str := u "<p>" ++ letters n ++ u "</p>".
Definition letters_markdown (n : nat) : str := letters n ++ [LF; LF].

(** A paragraph of [n] exclamation marks. *)
Definition marks_markdown (n : nat) : str := replicate n 33 ++ [LF; LF].

(** A page with one H1 header and a paragraph, and its header split. *)
Definition intro_markdown : str :=
  u "# Introduction" ++ [LF; LF] ++ letters 120 ++ [LF; LF].

Definition intro_split : Document :=
  mkDocument (u "# Introduction" ++ [LF] ++ letters 120)
    {[ "H1"%string := u "Introduction" ]}.

(** The page that [page_with] loads. *)
Definition example_page (html : str) : Page :=
  {| locator_count := fun _ => 1%nat;
     first_inner_html := fun _ => Ok html;
     inner_html := fun _ => Ok html;
     title := Ok (u "Example");
     get_attribute := fun _ _ => Ok None;
     close := Ok tt |}.

(** A vector store that is the list of its documents, answering a
    query with its first [k] documents; the model is a token. *)
Definition example_model (name : str) : outcome unit := Ok tt.
Definition list_index (docs : list Document) (model : unit)
    : outcome (list Document) := Ok docs.
Definition list_save (store : list Document) (path : str) : outcome unit :=
  Ok tt.
Definition list_search (store : list Document) (query : str) (k : nat)
    : outcome (list Document) := Ok (take k store).

(** A file system on which every call succeeds. *)
Definition working_io : file_io :=
  {| makedirs_dirname := fun _ => Ok tt; open_and_dump := fun _ _ => Ok tt |}.

Definition intro_html : str :=
  u "<h1>Introduction</h1><p>" ++ letters 120 ++ u "</p>".

(** [scrape_and_process_url] on the example URL, for a page with this
    HTML that html2text renders as [markdown] and that the header splitter
    splits into [splits]. *)
Definition scrape_example (html markdown : str) (splits : list Document)
    : option (list Document) :=
  scrape_and_process_url ascii_lower ascii_word example_urlparse
    allowing_parser (page_with html) (handle_to markdown) (split_to splits)
    one_piece example_url.

Definition example_base : gmap string str :=
  base_metadata example_url (u "Example") [] (u "article").

(** Three chunks of lengths 1, 1 and 2, one of them with a source. *)
Definition example_chunks : list Document :=
  [mkDocument (u "a") ∅;
   mkDocument (u "a") {[ "source"%string := u "x" ]};
   mkDocument (u "aa") ∅].

(** The claim of the specification on [unique_sources]: the number of
    distinct values that the chunks have under the key [source]. *)
Definition spec_unique_sources (chunks : list Document) : nat :=
  size (list_to_set (omap (fun chunk => metadata chunk !! "source"%string) chunks)
        : gset str).

(** ** Vocabulary of the properties *)

(** [needle] occurs in [hay] as consecutive characters. *)
Definition contains (needle hay : str) : Prop :=
  ∃ pre post, hay = pre ++ needle ++ post.

(** No position of [s] starts [n] consecutive [c]. *)
Fixpoint runs_below (c : char) (n : nat) (s : str) : Prop :=
  match s with
  | [] => True
  | _ :: t => (run (chr c) s < n)%nat ∧ runs_below c n t
  end.

(** What [sanitize_filename] writes for one character. *)
Definition replace_unsafe (c : char) : char :=
  if unsafe_char c then UNDERSCORE else c.

(** The least number of characters that a match of [p] consumes. *)
Fixpoint min_length (p : list item) : nat :=
  match p with
  | [] => 0
  | Rep _ lo _ :: p' => lo + min_length p'
  | _ :: p' => min_length p'
  end.

(** [re_sub] of the pattern [C{lo,}], scanning from inside the subject. *)
Definition collapse (cls : char -> bool) (lo : nat) (repl : str) (s : str) : str :=
  sub_go [Rep cls lo None] repl false 0 s.

(** * Properties *)

Local Open Scope nat_scope.

(** ** The model on a few inputs, as CPython answers them *)

Example re_sub_stars :
  re_sub [at_least 3 (chr STAR)] (u "**") (u "a****b**c***") = u "a**b**c**".
Proof. reflexivity. Qed.

Example re_sub_blank_lines :
  re_sub [one (chr LF); star isspace; one (chr LF); star isspace; plus (chr LF)]
    (u "X") [97; 10; 32; 10; 32; 10; 10; 32; 32; 98]%N = u "aX  b".
Proof. reflexivity. Qed.

Example re_sub_scheme_once :
  re_sub (Bol :: lit "http" ++ [opt (chr 115)] ++ lit "://") []
    (u "https://https://x") = u "https://x".
Proof. reflexivity. Qed.

Example strip_unicode : strip [32; 28; 32; 97; 32; 133; 160]%N = u "a".
Proof. reflexivity. Qed.

Example split_trailing : split LF [97; 10]%N = [u "a"; []].
Proof. reflexivity. Qed.

Example split_empty : split LF [] = [[]].
Proof. reflexivity. Qed.

Example clean_text_example :
  clean_text ([32; 97; 9; 9; 98; 10; 10; 10]%N ++ u "c.....d-----e" ++ [7; 32]%N)
  = u "a b c...d---e".
Proof. reflexivity. Qed.

Example clean_markdown_example :
  clean_markdown_content ascii_lower
    (u "Menu" ++ [LF] ++ u "# Title ****" ++ [LF; LF; LF; LF] ++ u "| - |"
     ++ [LF] ++ u "ab" ++ [LF] ++ u "  some text  " ++ [LF])
  = u "# Title **" ++ [LF] ++ u "some text".
Proof. reflexivity. Qed.

Example true_div_4_3 : true_div 4 3 = mkFloat 6004799503160661 (-52).
Proof. reflexivity. Qed.

Example round2_near_tie :
  round2 (true_div 203 200) = true_div 101 100.
Proof. reflexivity. Qed.

(** [check_robots_txt] with the parser of the standard library, when the
    request for robots.txt ends in an HTTP error with these codes. *)
Example check_robots_txt_codes :
  map (λ code,
         check_robots_txt example_urlparse
           (stdlib_parser ascii_lower (λ _, robotparser.HTTPError code) 1
              no_entries page_path) example_url)
    [301; 400; 401; 403; 404; 429; 499; 500; 503; 599; 600]
  = [false; true; false; false; true; true; true; false; false; false; false].
Proof. reflexivity. Qed.

(** The same when the file is read: an empty file; a file that forbids
    [/] to every agent; one that forbids [/private]; bytes that cannot be
    decoded; and a host that cannot be reached. *)
Example check_robots_txt_files :
  map (λ '(answer, default),
         check_robots_txt example_urlparse
           (stdlib_parser ascii_lower (λ _, answer) 1 (λ _, ([], default))
              page_path) example_url)
    [(robotparser.Opened (Ok []), None);
     (robotparser.Opened (Ok [u "User-agent: *"; u "Disallow: /"]),
      Some (robotparser.mkEntry [u "*"]
              [robotparser.mkRuleLine (u "/") false]));
     (robotparser.Opened (Ok [u "User-agent: *"; u "Disallow: /private"]),
      Some (robotparser.mkEntry [u "*"]
              [robotparser.mkRuleLine (u "/private") false]));
     (robotparser.Opened Raise, None);
     (robotparser.Failed, None)]
  = [true; false; true; true; true].
Proof. reflexivity. Qed.

(** ** Stripping *)

Lemma lstrip_decompose (s : str) :
  ∃ pre, s = pre ++ lstrip s ∧ Forall (λ c, isspace c = true) pre.
Proof.
  induction s as [|c s [pre [Hs Hpre]]]; simpl.
  - exists []. split; [reflexivity | constructor].
  - destruct (isspace c) eqn:Hc.
    + exists (c :: pre). split; [simpl; congruence | by constructor].
    + exists []. split; [reflexivity | constructor].
Qed.

Lemma lstrip_head (s : str) (c : char) (t : str) :
  lstrip s = c :: t → isspace c = false.
Proof.
  induction s as [|a s IH]; simpl; [discriminate |].
  destruct (isspace a) eqn:Ha; [exact IH |].
  intros [= -> _]. exact Ha.
Qed.

Lemma lstrip_id (c : char) (t : str) :
  isspace c = false → lstrip (c :: t) = c :: t.
Proof. intros H. simpl. by rewrite H. Qed.

Lemma lstrip_idem (s : str) : lstrip (lstrip s) = lstrip s.
Proof.
  destruct (lstrip s) as [|c t] eqn:E; [reflexivity |].
  apply lstrip_id. eapply lstrip_head, E.
Qed.

Lemma rstrip_decompose (s : str) :
  ∃ post, s = rstrip s ++ post ∧ Forall (λ c, isspace c = true) post.
Proof.
  destruct (lstrip_decompose (rev s)) as [pre [Hs Hpre]].
  exists (rev pre). split.
  - unfold rstrip. rewrite <- rev_app_distr, <- Hs. by rewrite rev_involutive.
  - apply Forall_forall. intros c Hc. rewrite Forall_forall in Hpre.
    apply Hpre. apply list_elem_of_In, in_rev, list_elem_of_In, Hc.
Qed.

Lemma rstrip_idem (s : str) : rstrip (rstrip s) = rstrip s.
Proof. unfold rstrip. by rewrite rev_involutive, lstrip_idem. Qed.

Lemma strip_decompose (s : str) :
  ∃ pre post, s = pre ++ strip s ++ post.
Proof.
  destruct (lstrip_decompose s) as [pre [Hs _]].
  destruct (rstrip_decompose (lstrip s)) as [post [Ht _]].
  exists pre, post. unfold strip. by rewrite <- Ht.
Qed.

(** [strip] is idempotent: a stripped string is trimmed. *)
Lemma strip_idem (s : str) : strip (strip s) = strip s.
Proof.
  unfold strip.
  assert (H : lstrip (rstrip (lstrip s)) = rstrip (lstrip s)).
  { destruct (rstrip_decompose (lstrip s)) as [post [Ht _]].
    destruct (rstrip (lstrip s)) as [|c t] eqn:E; [reflexivity |].
    apply lstrip_id. eapply lstrip_head. rewrite Ht. reflexivity. }
  rewrite H. apply rstrip_idem.
Qed.

Lemma strip_elem (s : str) (c : char) : c ∈ strip s → c ∈ s.
Proof.
  destruct (strip_decompose s) as [pre [post Hs]].
  intros Hc. rewrite Hs. rewrite !elem_of_app. auto.
Qed.

(** ** Runs of one character *)

Lemma chr_true (c x : char) : chr c x = true ↔ x = c.
Proof. unfold chr. rewrite N.eqb_eq. split; congruence. Qed.

Lemma chr_false (c x : char) : chr c x = false ↔ x ≠ c.
Proof. unfold chr. rewrite N.eqb_neq. split; congruence. Qed.

Lemma chr_refl (c : char) : chr c c = true.
Proof. by apply chr_true. Qed.

(** Rewrites [chr c x] to [false] when [x ≠ c] is at hand. *)
Ltac chr_off :=
  match goal with
  | |- context [chr ?c ?x] =>
      replace (chr c x) with false by (symmetry; by apply chr_false)
  end.

Lemma run_le_length (cls : char → bool) (s : str) : run cls s ≤ length s.
Proof. induction s as [|c s IH]; simpl; [lia |]. destruct (cls c); lia. Qed.

Lemma run_app_le (cls : char → bool) (l r : str) :
  run cls l ≤ run cls (l ++ r).
Proof. induction l as [|c l IH]; simpl; [lia |]. destruct (cls c); lia. Qed.

Lemma run_app_sep (cls : char → bool) (x : char) (l r : str) :
  cls x = false → run cls (l ++ x :: r) = run cls l.
Proof.
  intros Hx. induction l as [|c l IH]; simpl; [by rewrite Hx |].
  destruct (cls c); congruence.
Qed.

Lemma run_drop_run (cls : char → bool) (s : str) :
  run cls (drop (run cls s) s) = 0.
Proof.
  induction s as [|c s IH]; simpl; [reflexivity |].
  destruct (cls c) eqn:Hc; simpl; [exact IH | by rewrite Hc].
Qed.

Lemma run_lt_length (cls : char → bool) (s : str) :
  run cls s < length s → ∃ c, c ∈ s ∧ cls c = false.
Proof.
  induction s as [|c s IH]; simpl; [lia |].
  destruct (cls c) eqn:Hc.
  - intros H. destruct IH as [x [Hx Hf]]; [lia |].
    exists x. split; [by right | exact Hf].
  - intros _. exists c. split; [by left | exact Hc].
Qed.

Lemma run_replicate (c : char) (n : nat) (post : str) :
  n ≤ run (chr c) (replicate n c ++ post).
Proof. induction n as [|n IH]; simpl; [lia |]. rewrite chr_refl. lia. Qed.

Lemma runs_below_pos (c : char) (n : nat) (a : char) (s : str) :
  runs_below c n (a :: s) → 0 < n.
Proof. intros [H _]. lia. Qed.

Lemma runs_below_mono (c : char) (n m : nat) (s : str) :
  n ≤ m → runs_below c n s → runs_below c m s.
Proof.
  intros Hnm. induction s as [|a s IH]; [done |].
  intros [H1 H2]. split; [lia | by apply IH].
Qed.

Lemma runs_below_app (c : char) (n : nat) (l r : str) :
  runs_below c n (l ++ r) → runs_below c n l ∧ runs_below c n r.
Proof.
  induction l as [|a l IH]; [by split |].
  intros [H1 H2]. destruct (IH H2) as [Hl Hr]. split; [split |]; try done.
  pose proof (run_app_le (chr c) (a :: l) r). simpl in *. lia.
Qed.

Lemma runs_below_drop (c : char) (n k : nat) (s : str) :
  runs_below c n s → runs_below c n (drop k s).
Proof.
  intros H. rewrite <- (take_drop k s) in H. by apply runs_below_app in H as [_ H].
Qed.

Lemma runs_below_free (c : char) (n : nat) (l t : str) :
  0 < n → c ∉ l → runs_below c n t → runs_below c n (l ++ t).
Proof.
  intros Hn Hl Ht. induction l as [|a l IH]; [done |].
  apply not_elem_of_cons in Hl as [Ha Hl]. split; [| by apply IH].
  simpl. chr_off. lia.
Qed.

Lemma runs_below_sep (c x : char) (n : nat) (l r : str) :
  0 < n → x ≠ c → runs_below c n l → runs_below c n r →
  runs_below c n (l ++ x :: r).
Proof.
  intros Hn Hx Hl Hr. induction l as [|a l IH].
  - split; [| done]. simpl.
    chr_off. lia.
  - destruct Hl as [H1 H2]. split; [| by apply IH].
    change (a :: l ++ x :: r) with ((a :: l) ++ x :: r).
    rewrite run_app_sep; [done | by apply chr_false].
Qed.

(** A string without [n] consecutive [c] anywhere does not contain the
    string of [n] characters [c]. *)
Lemma runs_below_contains (c : char) (n : nat) (s : str) :
  0 < n → runs_below c n s → ¬ contains (replicate n c) s.
Proof.
  intros Hn H [pre [post ->]].
  apply runs_below_app in H as [_ H].
  pose proof (run_replicate c n post) as Hrun.
  destruct n as [|n]; [lia |]. destruct H as [H _]. simpl in *. lia.
Qed.

(** ** [split] and [join] *)

Lemma split_not_nil (sep : char) (s : str) : split sep s ≠ [].
Proof.
  induction s as [|c s IH]; simpl; [done |].
  destruct (c =? sep)%N; [done |]. by destruct (split sep s).
Qed.

Lemma join_cons (sep : char) (l : str) (ls : list str) :
  ls ≠ [] → join sep (l :: ls) = l ++ sep :: join sep ls.
Proof. by destruct ls. Qed.

Lemma join_split (sep : char) (s : str) : join sep (split sep s) = s.
Proof.
  induction s as [|c s IH]; [reflexivity |]. simpl split.
  destruct (c =? sep)%N eqn:Hc.
  - apply N.eqb_eq in Hc as ->.
    rewrite join_cons by apply split_not_nil. simpl. by rewrite IH.
  - pose proof (split_not_nil sep s) as Hne.
    destruct (split sep s) as [|l ls]; [done |].
    rewrite <- IH. destruct ls; reflexivity.
Qed.

Lemma split_free (sep : char) (s : str) :
  Forall (λ l, sep ∉ l) (split sep s).
Proof.
  induction s as [|c s IH]; simpl.
  - repeat constructor. apply not_elem_of_nil.
  - destruct (c =? sep)%N eqn:Hc.
    + constructor; [apply not_elem_of_nil | exact IH].
    + apply N.eqb_neq in Hc. destruct (split sep s) as [|l ls].
      * repeat constructor. apply not_elem_of_cons. split; [congruence | apply not_elem_of_nil].
      * inversion IH; subst. constructor; [| done].
        apply not_elem_of_cons. split; [congruence | done].
Qed.

Lemma split_app_sep (sep : char) (l rest : str) :
  sep ∉ l → split sep (l ++ sep :: rest) = l :: split sep rest.
Proof.
  induction l as [|a l IH]; intros Hl; simpl.
  - by rewrite N.eqb_refl.
  - apply not_elem_of_cons in Hl as [Ha Hl].
    replace (a =? sep)%N with false by (symmetry; apply N.eqb_neq; congruence).
    by rewrite IH.
Qed.

Lemma split_one (sep : char) (l : str) : sep ∉ l → split sep l = [l].
Proof.
  induction l as [|a l IH]; intros Hl; simpl; [reflexivity |].
  apply not_elem_of_cons in Hl as [Ha Hl].
  replace (a =? sep)%N with false by (symmetry; apply N.eqb_neq; congruence).
  by rewrite IH.
Qed.

Lemma split_join (sep : char) (ls : list str) :
  ls ≠ [] → Forall (λ l, sep ∉ l) ls → split sep (join sep ls) = ls.
Proof.
  induction ls as [|l ls IH]; [done |]. intros _ H.
  inversion H as [|? ? Hl Hls]; subst.
  destruct ls as [|l' ls'].
  - simpl. by apply split_one.
  - rewrite join_cons by done. rewrite split_app_sep by done.
    by rewrite IH.
Qed.

Lemma runs_below_join (c sep : char) (n : nat) (ls : list str) :
  0 < n → sep ≠ c → Forall (runs_below c n) ls →
  runs_below c n (join sep ls).
Proof.
  intros Hn Hsep. induction ls as [|l ls IH]; [done |].
  intros H. inversion H; subst. destruct ls as [|l' ls']; [done |].
  rewrite join_cons by done. apply runs_below_sep; auto.
Qed.

Lemma runs_below_unjoin (c sep : char) (n : nat) (ls : list str) :
  runs_below c n (join sep ls) → Forall (runs_below c n) ls.
Proof.
  induction ls as [|l ls IH]; [constructor |].
  destruct ls as [|l' ls']; [by repeat constructor |].
  rewrite join_cons by done. intros H.
  apply runs_below_app in H as [Hl [_ H]]. constructor; auto.
Qed.

Lemma runs_below_split (c sep : char) (n : nat) (s : str) :
  runs_below c n s → Forall (runs_below c n) (split sep s).
Proof. intros H. apply (runs_below_unjoin c sep). by rewrite join_split. Qed.

Lemma join_head (sep : char) (ls : list str) :
  Forall (λ l, l ≠ [] ∧ sep ∉ l) ls → run (chr sep) (join sep ls) = 0.
Proof.
  destruct ls as [|l ls]; [done |]. intros H.
  inversion H as [|? ? [Hne Hl] _]; subst.
  destruct l as [|a l]; [done |]. apply not_elem_of_cons in Hl as [Ha _].
  assert (chr sep a = false) as Hf by by apply chr_false.
  destruct ls; simpl; by rewrite Hf.
Qed.

(** Joining non-empty lines leaves no two adjacent separators. *)
Lemma join_no_double (sep : char) (ls : list str) :
  Forall (λ l, l ≠ [] ∧ sep ∉ l) ls → runs_below sep 2 (join sep ls).
Proof.
  induction ls as [|l ls IH]; [done |]. intros H.
  inversion H as [|? ? [Hne Hl] Hls]; subst.
  destruct ls as [|l' ls'].
  - simpl. rewrite <- (app_nil_r l). apply runs_below_free; [lia | done | done].
  - rewrite join_cons by done. apply runs_below_free; [lia | done |].
    split; [| by apply IH]. simpl. rewrite chr_refl.
    pose proof (join_head sep (l' :: ls') Hls). simpl in *. lia.
Qed.

(** ** The matcher and [re_sub] *)

Lemma backtrack_some (k : nat → option nat) (lo n r : nat) :
  backtrack k lo n = Some r → ∃ m, m ≤ n ∧ lo ≤ m ∧ k m = Some r.
Proof.
  induction n as [|n IH]; simpl.
  - destruct (0 <? lo) eqn:Hlo; [discriminate |].
    apply Nat.ltb_ge in Hlo. destruct (k 0) eqn:Hk; [| discriminate].
    intros [= ->]. exists 0. auto.
  - destruct (S n <? lo) eqn:Hlo; [discriminate |].
    apply Nat.ltb_ge in Hlo. destruct (k (S n)) eqn:Hk.
    + intros [= ->]. exists (S n). auto.
    + intros H. destruct (IH H) as [m [? [? ?]]]. exists m. auto.
Qed.

Lemma backtrack_first (k : nat → option nat) (lo n r : nat) :
  lo ≤ n → k n = Some r → backtrack k lo n = Some r.
Proof.
  intros Hlo Hk. destruct n; simpl.
  - replace (0 <? lo) with false by (symmetry; by apply Nat.ltb_ge).
    by rewrite Hk.
  - replace (S n <? lo) with false by (symmetry; by apply Nat.ltb_ge).
    by rewrite Hk.
Qed.

Lemma backtrack_below (k : nat → option nat) (lo n : nat) :
  n < lo → backtrack k lo n = None.
Proof.
  intros H. destruct n; simpl;
    by (replace (_ <? lo) with true by (symmetry; by apply Nat.ltb_lt)).
Qed.

Lemma capped_le (hi : option nat) (n : nat) : capped hi n ≤ n.
Proof. destruct hi; simpl; lia. Qed.

(** A match never runs past the end of the subject. *)
Lemma match_here_le (p : list item) (bos : bool) (s : str) (n : nat) :
  match_here p bos s = Some n → n ≤ length s.
Proof.
  revert bos s n. induction p as [|i p IH]; intros bos s n; simpl.
  - intros [= <-]. lia.
  - destruct i as [| |cls lo hi].
    + destruct bos; [apply IH | discriminate].
    + destruct s as [|c [|c' s]]; [apply IH | | discriminate].
      destruct (c =? LF)%N; [apply IH | discriminate].
    + intros H. apply backtrack_some in H as [m [Hm [_ Hk]]].
      destruct (match_here p _ (drop m s)) as [r|] eqn:Hr; [| discriminate].
      injection Hk as <-. apply IH in Hr. rewrite length_drop in Hr.
      pose proof (capped_le hi (run cls s)). pose proof (run_le_length cls s).
      lia.
Qed.

(** The match of a single [C{lo,}]: the whole run, when it is long
    enough. *)
Lemma match_here_rep (cls : char → bool) (lo : nat) (bos : bool) (s : str) :
  match_here [Rep cls lo None] bos s
  = if lo <=? run cls s then Some (run cls s) else None.
Proof.
  simpl. destruct (lo <=? run cls s) eqn:H.
  - apply Nat.leb_le in H. apply backtrack_first; [done |].
    simpl. f_equal. lia.
  - apply Nat.leb_gt in H. by apply backtrack_below.
Qed.

(** The match of a single [C]: one character of the class. *)
Lemma match_here_one (cls : char → bool) (bos : bool) (c : char) (s : str) :
  match_here [one cls] bos (c :: s) = if cls c then Some 1 else None.
Proof.
  unfold one. simpl. destruct (cls c); simpl; [| reflexivity].
  by destruct (run cls s).
Qed.

Lemma sub_go_nil (p : list item) (repl : str) (bos : bool) (skip : nat) :
  sub_go p repl bos skip [] = [].
Proof.
  destruct skip; simpl; [| reflexivity].
  destruct (match_here p bos []) as [[|k]|] eqn:H; try reflexivity.
  apply match_here_le in H. simpl in H. lia.
Qed.

Lemma sub_go_skip (p : list item) (repl : str) (skip : nat) (s : str) :
  sub_go p repl false skip s = sub_go p repl false 0 (drop skip s).
Proof.
  revert s. induction skip as [|k IH]; intros s; [reflexivity |].
  destruct s as [|c s]; [by rewrite !sub_go_nil |]. simpl drop.
  rewrite <- IH. reflexivity.
Qed.

(** The two equations of [re_sub]: at a match the replacement is written
    and the scan goes on behind the match; elsewhere one character is
    copied. *)
Lemma sub_go_hit (p : list item) (repl : str) (bos : bool) (s : str) (k : nat) :
  match_here p bos s = Some (S k) →
  sub_go p repl bos 0 s = repl ++ sub_go p repl false 0 (drop (S k) s).
Proof.
  intros H. destruct s as [|c s].
  - apply match_here_le in H. simpl in H. lia.
  - simpl sub_go. rewrite H. by rewrite sub_go_skip.
Qed.

Lemma sub_go_miss (p : list item) (repl : str) (bos : bool) (c : char) (s : str) :
  match_here p bos (c :: s) = None →
  sub_go p repl bos 0 (c :: s) = c :: sub_go p repl false 0 s.
Proof. intros H. simpl. by rewrite H. Qed.

Lemma sub_go_bol (p : list item) (repl : str) (s : str) :
  sub_go (Bol :: p) repl false 0 s = s.
Proof. induction s as [|c s IH]; [reflexivity |]. simpl. by rewrite IH. Qed.

Lemma match_here_min (p : list item) (bos : bool) (s : str) (n : nat) :
  match_here p bos s = Some n → min_length p ≤ n.
Proof.
  revert bos s n. induction p as [|i p IH]; intros bos s n; simpl.
  - intros [= <-]. lia.
  - destruct i as [| |cls lo hi].
    + destruct bos; [apply IH | discriminate].
    + destruct s as [|c [|c' s]]; [apply IH | | discriminate].
      destruct (c =? LF)%N; [apply IH | discriminate].
    + intros H. apply backtrack_some in H as [m [_ [Hlo Hk]]].
      destruct (match_here p _ (drop m s)) as [r|] eqn:Hr; [| discriminate].
      injection Hk as <-. apply IH in Hr. lia.
Qed.

(** No pattern that the program gives to [re.sub] matches the empty
    string, so [re_sub] never meets an empty match. *)
Lemma sub_patterns_consume :
  Forall (λ p, ∀ bos s, match_here p bos s ≠ Some 0)
    [[at_least 3 (chr LF)]; [at_least 3 (chr STAR)];
     [at_least 3 (chr UNDERSCORE)]; [plus isspace]; [one control_char];
     [one (chr LF); star isspace; one (chr LF); star isspace; plus (chr LF)];
     [plus (chr TAB)]; [at_least 3 (chr DOT)]; [at_least 3 (chr HYPHEN)];
     Bol :: lit "http" ++ [opt (chr 115)] ++ lit "://"; [one unsafe_char]].
Proof.
  repeat constructor; intros bos s H; apply match_here_min in H;
    simpl in H; lia.
Qed.

(** *** Replacing [C{lo,}], the shape of five patterns of the program *)
Section Collapse.

Variable cls : char → bool.
Variable lo : nat.
Variable repl : str.
Hypothesis lo_pos : 0 < lo.

Lemma re_sub_collapse (s : str) :
  re_sub [Rep cls lo None] repl s = collapse cls lo repl s.
Proof using Type.
  unfold re_sub, collapse. destruct s as [|c s]; [reflexivity |].
  cbn [sub_go]. by rewrite !match_here_rep.
Qed.

Lemma collapse_hit (s : str) :
  lo ≤ run cls s →
  collapse cls lo repl s = repl ++ collapse cls lo repl (drop (run cls s) s).
Proof using lo_pos.
  intros H. unfold collapse.
  destruct (run cls s) as [|k] eqn:Hk; [lia |].
  apply sub_go_hit. rewrite match_here_rep, Hk.
  by replace (lo <=? S k) with true by (symmetry; by apply Nat.leb_le).
Qed.

Lemma collapse_miss (c : char) (s : str) :
  run cls (c :: s) < lo →
  collapse cls lo repl (c :: s) = c :: collapse cls lo repl s.
Proof using Type.
  intros H. unfold collapse. apply sub_go_miss. rewrite match_here_rep.
  by replace (lo <=? _) with false by (symmetry; by apply Nat.leb_gt).
Qed.

(** Induction along the scan of [re_sub]. *)
Lemma collapse_ind (P : str → str → Prop) :
  P [] [] →
  (∀ s, lo ≤ run cls s →
        P (drop (run cls s) s) (collapse cls lo repl (drop (run cls s) s)) →
        P s (repl ++ collapse cls lo repl (drop (run cls s) s))) →
  (∀ c s, run cls (c :: s) < lo → P s (collapse cls lo repl s) →
          P (c :: s) (c :: collapse cls lo repl s)) →
  ∀ s, P s (collapse cls lo repl s).
Proof using lo_pos.
  intros Hnil Hhit Hmiss s.
  remember (length s) as n eqn:Hn. revert s Hn.
  induction n as [n IH] using lt_wf_ind. intros s Hn.
  destruct s as [|c s];
    [unfold collapse; rewrite sub_go_nil; exact Hnil |].
  destruct (le_lt_dec lo (run cls (c :: s))) as [H|H].
  - rewrite collapse_hit by done. apply Hhit; [done |].
    eapply IH; [| reflexivity]. subst n. rewrite length_drop.
    simpl length. lia.
  - rewrite collapse_miss by done. apply Hmiss; [done |].
    eapply IH; [| reflexivity]. subst n. simpl. lia.
Qed.

End Collapse.

(** *** Collapsing runs of one character to two *)

(** After [re.sub(r'c{3,}', 'cc', s)] no three [c] are adjacent. *)
Lemma collapse_own (c : char) (s : str) :
  run (chr c) (collapse (chr c) 3 [c; c] s) = Nat.min 2 (run (chr c) s)
  ∧ runs_below c 3 (collapse (chr c) 3 [c; c] s).
Proof.
  apply (collapse_ind (chr c) 3 [c; c]); [lia | done | |].
  - intros t Hrun [IH1 IH2]. rewrite run_drop_run in IH1.
    cbn [app run runs_below]. rewrite !chr_refl, IH1.
    repeat split; try lia; done.
  - intros a t Hrun [IH1 IH2]. cbn [run runs_below] in *.
    destruct (chr c a); (split; [| split]); try done; lia.
Qed.

(** That substitution builds no run of any other character. *)
Lemma collapse_other (c c' : char) (n : nat) (s : str) :
  c' ≠ c →
  run (chr c') (collapse (chr c) 3 [c; c] s) ≤ run (chr c') s
  ∧ (runs_below c' n s → runs_below c' n (collapse (chr c) 3 [c; c] s)).
Proof.
  intros Hc. assert (chr c' c = false) as Hf by by apply chr_false.
  apply (collapse_ind (chr c) 3 [c; c]); [lia | done | |].
  - intros t Hrun [IH1 IH2]. simpl. rewrite Hf. split; [lia |].
    intros Ht. destruct t as [|a t]; [simpl in Hrun; lia |].
    pose proof (runs_below_pos _ _ _ _ Ht).
    repeat split; try lia. apply IH2. by apply runs_below_drop.
  - intros a t Hrun [IH1 IH2]. simpl.
    split; [destruct (chr c' a); lia |].
    intros [H1 H2]. split; [| by apply IH2].
    destruct (chr c' a); lia.
Qed.

(** ** [clean_markdown_content] *)

Lemma runs_below_strip (c : char) (n : nat) (l : str) :
  runs_below c n l → runs_below c n (strip l).
Proof.
  destruct (strip_decompose l) as [pre [post Hl]]. intros H.
  rewrite Hl in H. apply runs_below_app in H as [_ H].
  by apply runs_below_app in H as [H _].
Qed.

Lemma skipped_false_length (lower : str → str) (line : str) :
  skipped lower line = false → 3 ≤ length line.
Proof.
  unfold skipped. rewrite !orb_false_iff. intros [[[H _] _] _].
  by apply Nat.ltb_ge in H.
Qed.

(** Every line that the loop keeps is stripped and has three characters
    or more. *)
Lemma clean_lines_kept (lower : str → str) (Q : str → Prop) (lines : list str) :
  Forall (λ line, Q (strip line)) lines →
  Forall (λ line, Q line ∧ 3 ≤ length line ∧ strip line = line)
    (clean_lines lower lines).
Proof.
  induction 1 as [|line lines HQ _ IH]; simpl; [constructor |].
  destruct (skipped lower (strip line)) eqn:Hs; [exact IH |].
  constructor; [| exact IH].
  repeat split; [done | by eapply skipped_false_length | apply strip_idem].
Qed.

Lemma clean_markdown_lines (lower : str → str) (s : str) :
  ∃ lines, clean_markdown_content lower s = join LF lines
    ∧ Forall (λ line, (LF ∉ line) ∧ 3 ≤ length line ∧ strip line = line) lines.
Proof.
  destruct s as [|c s].
  { exists []. by split. }
  unfold clean_markdown_content. eexists. split; [reflexivity |].
  apply clean_lines_kept. eapply Forall_impl; [apply split_free |].
  intros l Hl Hin. by apply Hl, strip_elem.
Qed.

Lemma clean_markdown_runs (lower : str → str) (c : char) (s : str) :
  c = STAR ∨ c = UNDERSCORE →
  runs_below c 3 (clean_markdown_content lower s).
Proof.
  intros Hc. destruct s as [|a s]; [done |].
  unfold clean_markdown_content, at_least. rewrite !re_sub_collapse.
  set (t1 := collapse (chr LF) 3 [LF; LF] (a :: s)).
  assert (runs_below c 3
            (collapse (chr UNDERSCORE) 3 (u "__")
               (collapse (chr STAR) 3 (u "**") t1))) as H.
  { destruct Hc as [-> | ->].
    - apply collapse_other; [done |]. apply collapse_own.
    - apply collapse_own. }
  apply runs_below_join; [lia | by destruct Hc as [-> | ->] |].
  eapply Forall_impl; [apply (clean_lines_kept lower (runs_below c 3)) |].
  - eapply Forall_impl; [apply (runs_below_split c LF), H |].
    intros l. apply runs_below_strip.
  - by intros l [Hl _].
Qed.

Lemma clean_markdown_newlines (lower : str → str) (s : str) :
  runs_below LF 2 (clean_markdown_content lower s).
Proof.
  destruct (clean_markdown_lines lower s) as [lines [-> H]].
  apply join_no_double. eapply Forall_impl; [exact H |].
  intros [|a l] [H1 [H2 _]]; [simpl in H2; lia | done].
Qed.

(** C4. For every input string, the output of [clean_markdown_content]
    contains no run of three or more newline characters, none of three or
    more [*] and none of three or more [_]: for every [k], the string of
    [3 + k] such characters does not occur in it. *)
Theorem clean_markdown_content_no_triple (lower : str → str)
    (markdown_text : str) (k : nat) :
  ¬ contains (replicate (3 + k) LF) (clean_markdown_content lower markdown_text)
  ∧ ¬ contains (replicate (3 + k) STAR)
        (clean_markdown_content lower markdown_text)
  ∧ ¬ contains (replicate (3 + k) UNDERSCORE)
        (clean_markdown_content lower markdown_text).
Proof.
  repeat split; apply runs_below_contains; try lia.
  - apply (runs_below_mono LF 2); [lia |]. apply clean_markdown_newlines.
  - apply (runs_below_mono STAR 3); [lia |]. apply clean_markdown_runs. auto.
  - apply (runs_below_mono UNDERSCORE 3); [lia |].
    apply clean_markdown_runs. auto.
Qed.

(** C10. For every input string, every line of the output of
    [clean_markdown_content] (the pieces between its newlines; the empty
    output has no line) has three characters or more after stripping, and
    the output contains no two adjacent newlines: it has no blank line, and
    the double-newline separator of the splitter never matches in it. *)
Theorem clean_markdown_content_lines (lower : str → str) (markdown_text : str) :
  (clean_markdown_content lower markdown_text = []
   ∨ Forall (λ line, 3 ≤ length (strip line))
       (split LF (clean_markdown_content lower markdown_text)))
  ∧ ¬ contains [LF; LF] (clean_markdown_content lower markdown_text).
Proof.
  split.
  - destruct (clean_markdown_lines lower markdown_text) as [lines [-> H]].
    destruct lines as [|l ls]; [by left | right].
    rewrite split_join; [| done |].
    + eapply Forall_impl; [exact H |]. intros line [_ [H3 ->]]. exact H3.
    + eapply Forall_impl; [exact H |]. by intros line [Hl _].
  - apply (runs_below_contains LF 2); [lia |]. apply clean_markdown_newlines.
Qed.

(** ** [sanitize_filename] *)

(** Replacing every character of a class by one character is a [map]. *)
Lemma sub_go_one (cls : char → bool) (x : char) (bos : bool) (s : str) :
  sub_go [one cls] [x] bos 0 s = map (λ c, if cls c then x else c) s.
Proof.
  revert bos. induction s as [|c s IH]; intros bos; [apply sub_go_nil |].
  pose proof (match_here_one cls bos c s) as Hm.
  simpl map. destruct (cls c).
  - rewrite (sub_go_hit _ _ _ _ 0 Hm). simpl drop. rewrite drop_0.
    by rewrite IH.
  - rewrite (sub_go_miss _ _ _ _ _ Hm). by rewrite IH.
Qed.

Lemma sanitize_filename_map (url : str) :
  sanitize_filename url
  = take 100 (map replace_unsafe
                (re_sub (Bol :: lit "http" ++ [opt (chr 115)] ++ lit "://") [] url)).
Proof.
  unfold sanitize_filename. unfold re_sub at 1.
  change (u "_") with [UNDERSCORE]. by rewrite sub_go_one.
Qed.

Lemma scheme_https (rest : str) :
  re_sub (Bol :: lit "http" ++ [opt (chr 115)] ++ lit "://") []
    (u "https://" ++ rest) = rest.
Proof.
  unfold re_sub. rewrite (sub_go_hit _ _ _ _ 7).
  - simpl. apply sub_go_bol.
  - cbn. destruct (run (chr 47) rest); reflexivity.
Qed.

Lemma scheme_http (rest : str) :
  re_sub (Bol :: lit "http" ++ [opt (chr 115)] ++ lit "://") []
    (u "http://" ++ rest) = rest.
Proof.
  unfold re_sub. rewrite (sub_go_hit _ _ _ _ 6).
  - simpl. apply sub_go_bol.
  - cbn. destruct (run (chr 47) rest); reflexivity.
Qed.

Lemma unsafe_char_false (c : char) :
  unsafe_char c = false → c ∉ DQUOTE :: u "/:*?<>|".
Proof.
  unfold unsafe_char. intros H Hin.
  apply not_true_iff_false in H. apply H.
  apply existsb_exists. exists c. split; [| apply N.eqb_refl].
  by apply list_elem_of_In.
Qed.

Lemma replace_unsafe_safe (c : char) : unsafe_char (replace_unsafe c) = false.
Proof. unfold replace_unsafe. by destruct (unsafe_char c) eqn:H. Qed.

(** C9. [sanitize_filename] of [https://example.com/a:b?c] is
    [example.com_a_b_c]; a leading [http://] or [https://] is removed
    (the result is computed from what follows it); and for every URL the
    result has none of the characters [/ : * ? < > |] nor the double
    quote, and at most 100 characters. *)
Theorem sanitize_filename_spec :
  sanitize_filename (u "https://example.com/a:b?c") = u "example.com_a_b_c"
  ∧ (∀ rest : str,
       sanitize_filename (u "http://" ++ rest)
       = take 100 (map replace_unsafe rest)
       ∧ sanitize_filename (u "https://" ++ rest)
         = take 100 (map replace_unsafe rest))
  ∧ (∀ url : str,
       Forall (λ c, c ∉ DQUOTE :: u "/:*?<>|") (sanitize_filename url)
       ∧ length (sanitize_filename url) ≤ 100).
Proof.
  split; [reflexivity |]. split.
  - intros rest. by rewrite !sanitize_filename_map, scheme_http, scheme_https.
  - intros url. rewrite sanitize_filename_map. split.
    + apply Forall_take, Forall_forall. intros c Hc.
      apply list_elem_of_fmap in Hc as [x [-> _]].
      apply unsafe_char_false, replace_unsafe_safe.
    + rewrite length_take. lia.
Qed.

(** ** [check_robots_txt] *)

(** Whatever the parser is: when [read] raises, [check_robots_txt]
    returns [True]; it returns [False] only when [read] has returned and
    [can_fetch] answers [False]. *)
Lemma check_robots_txt_fail_open (urlparse : str → str * str)
    (robot_file_parser : str → RobotFileParser) (url : str) :
  (read (robot_file_parser (robots_url urlparse url)) = Raise →
   check_robots_txt urlparse robot_file_parser url = true)
  ∧ (check_robots_txt urlparse robot_file_parser url = false →
     read (robot_file_parser (robots_url urlparse url)) = Ok tt
     ∧ can_fetch (robot_file_parser (robots_url urlparse url)) (u "*") url
       = Ok false).
Proof.
  unfold check_robots_txt. split.
  - intros ->. reflexivity.
  - destruct (read _) as [[]|]; simpl; [| discriminate].
    destruct (can_fetch _ _ _) as [[]|]; simpl; try discriminate. done.
Qed.

Lemma check_robots_txt_fail_open_witness :
  check_robots_txt example_urlparse unreachable_parser example_url = true
  ∧ (read (denying_parser (robots_url example_urlparse example_url)) = Ok tt
     ∧ can_fetch (denying_parser (robots_url example_urlparse example_url))
         (u "*") example_url = Ok false).
Proof.
  split.
  - apply (proj1 (check_robots_txt_fail_open example_urlparse
                    unreachable_parser example_url)). reflexivity.
  - apply (proj2 (check_robots_txt_fail_open example_urlparse
                    denying_parser example_url)). reflexivity.
Defined.

(** C5 fails on the code. With the parser of the standard library only
    an error of [urlopen] that is not an [HTTPError] reaches the handler
    that assumes the URL allowed. An [HTTPError] is handled inside
    [read], which returns: no line has been parsed (no entry, no time of
    reading), and [check_robots_txt] answers [False] for the codes 401
    and 403 and for every code outside 400..499, a server error among
    them; for the other codes from 400 to 499 (a missing file) it
    answers [True] without the handler. *)
Theorem check_robots_txt_http_error (lower : str → str)
    (urlparse : str → str * str)
    (urlopen : str → robotparser.urlopen_result) (time : Z)
    (parse_entries :
       list str → list robotparser.Entry * option robotparser.Entry)
    (quoted_path : str → outcome str) (url : str) :
  (urlopen (robots_url urlparse url) = robotparser.Failed →
   read (stdlib_parser lower urlopen time parse_entries quoted_path
           (robots_url urlparse url)) = Raise
   ∧ check_robots_txt urlparse
       (stdlib_parser lower urlopen time parse_entries quoted_path) url
     = true)
  ∧ (∀ code : nat,
       urlopen (robots_url urlparse url) = robotparser.HTTPError code →
       ∃ self,
         robotparser.read urlopen time parse_entries robotparser.init
           (robots_url urlparse url) = Ok self
         ∧ robotparser.entries self = []
         ∧ robotparser.default_entry self = None
         ∧ robotparser.last_checked self = 0%Z
         ∧ check_robots_txt urlparse
             (stdlib_parser lower urlopen time parse_entries quoted_path) url
           = (400 <=? code) && (code <? 500)
             && negb ((code =? 401) || (code =? 403))).
Proof.
  unfold check_robots_txt, stdlib_parser. cbn [read can_fetch]. split.
  - unfold robotparser.read. by intros ->.
  - intros code Hopen. unfold robotparser.read. rewrite Hopen.
    destruct ((code =? 401) || (code =? 403)) eqn:Hdenied.
    + eexists. split; [reflexivity |]. repeat split.
      by rewrite andb_false_r.
    + destruct ((400 <=? code) && (code <? 500)) eqn:Hclient.
      * eexists. split; [reflexivity |]. by repeat split.
      * eexists. split; [reflexivity |]. by repeat split.
Qed.

Lemma check_robots_txt_http_error_witness :
  ∃ self,
    robotparser.read unavailable 1 no_entries robotparser.init
      (robots_url example_urlparse example_url) = Ok self
    ∧ robotparser.entries self = []
    ∧ robotparser.default_entry self = None
    ∧ robotparser.last_checked self = 0%Z
    ∧ check_robots_txt example_urlparse
        (stdlib_parser ascii_lower unavailable 1 no_entries page_path)
        example_url
      = false.
Proof.
  apply (proj2 (check_robots_txt_http_error ascii_lower example_urlparse
                  unavailable 1 no_entries page_path example_url) 503).
  reflexivity.
Defined.

(** ** [save_docs_to_json] *)

Lemma cleaned_docs_filter (docs : list Document) :
  cleaned_docs docs
  = map (λ doc, mkChunkJson (clean_text (page_content doc)) (metadata doc)
                  (length (clean_text (page_content doc))))
      (filter (λ doc, 50 < length (clean_text (page_content doc))) docs).
Proof.
  induction docs as [|doc docs IH]; [reflexivity |]. simpl cleaned_docs.
  rewrite filter_cons. destruct (clean_text (page_content doc)) as [|c t] eqn:E.
  - rewrite decide_False by (simpl; lia). exact IH.
  - destruct (50 <? length (c :: t)) eqn:H.
    + apply Nat.ltb_lt in H. rewrite decide_True by done.
      cbn [map]. by rewrite E, IH.
    + apply Nat.ltb_ge in H. rewrite decide_False by lia. exact IH.
Qed.

(** C6. Every element that [save_docs_to_json] writes is a record whose
    [page_content] is the [clean_text] of a document of the list, longer
    than 50 characters, with the metadata of that document and with
    [content_length] the length of that [page_content]; the array has one
    element for each document whose cleaned content exceeds 50 characters,
    in order, and none for the others. *)
Theorem save_docs_to_json_elements (io : file_io) (docs : list Document)
    (filename : str) (written : list chunk_json) (n : nat) :
  save_docs_to_json io docs filename = Ok (Some written, n) →
  written
  = map (λ doc, mkChunkJson (clean_text (page_content doc)) (metadata doc)
                  (length (clean_text (page_content doc))))
      (filter (λ doc, 50 < length (clean_text (page_content doc))) docs)
  ∧ Forall (λ e, json_content_length e = length (json_page_content e)
                 ∧ 50 < length (json_page_content e)
                 ∧ ∃ doc, doc ∈ docs
                     ∧ json_page_content e = clean_text (page_content doc)
                     ∧ json_metadata e = metadata doc) written
  ∧ n = length written.
Proof.
  unfold save_docs_to_json.
  destruct (makedirs_dirname io filename); simpl; [| discriminate].
  destruct (open_and_dump io filename _); intros [= <- <-].
  rewrite <- cleaned_docs_filter. split; [reflexivity |]. split; [| reflexivity].
  rewrite cleaned_docs_filter. apply Forall_forall. intros e He.
  apply list_elem_of_fmap in He as [doc [-> Hdoc]].
  apply list_elem_of_filter in Hdoc as [Hlen Hin]. simpl.
  repeat split; [done |]. by exists doc.
Qed.

Lemma save_docs_to_json_elements_witness :
  save_docs_to_json working_io
    [mkDocument (letters 60) ∅; mkDocument (letters 10) ∅]
    (u "data/processed/example.com_page_chunks.json")
  = Ok (Some [mkChunkJson (letters 60) ∅ 60], 1)
  ∧ [mkChunkJson (letters 60) ∅ 60]
    = map (λ doc, mkChunkJson (clean_text (page_content doc)) (metadata doc)
                    (length (clean_text (page_content doc))))
        (filter (λ doc, 50 < length (clean_text (page_content doc)))
           [mkDocument (letters 60) ∅; mkDocument (letters 10) ∅]).
Proof.
  split; [reflexivity |].
  apply (save_docs_to_json_elements working_io
           [mkDocument (letters 60) ∅; mkDocument (letters 10) ∅]
           (u "data/processed/example.com_page_chunks.json")
           [mkChunkJson (letters 60) ∅ 60] 1).
  reflexivity.
Defined.

(** ** The final filter of [scrape_and_process_url] *)

(** A string that [^C*$] does not match has a character outside [C]. *)
Lemma star_no_match (cls : char → bool) (s : str) :
  re_match [Bol; star cls; Eol] s = false → ∃ c, c ∈ s ∧ cls c = false.
Proof.
  intros H. apply run_lt_length.
  destruct (le_lt_dec (length s) (run cls s)) as [Hle|]; [| done].
  exfalso. pose proof (run_le_length cls s) as Hrun.
  assert (run cls s = length s) as E by lia.
  unfold re_match, star in H. cbn [match_here capped] in H.
  rewrite (backtrack_first _ 0 (run cls s) (length s + 0)) in H;
    [discriminate | lia |].
  rewrite E, drop_all. reflexivity.
Qed.

Lemma valid_content_true (is_word : char → bool) (s : str) :
  valid_content is_word s = true →
  50 < length s ∧ ∃ c, c ∈ s ∧ is_word c = true.
Proof.
  unfold valid_content. rewrite andb_true_iff, negb_true_iff.
  intros [Hlen Hre]. apply Nat.ltb_lt in Hlen. split; [done |].
  apply star_no_match in Hre as [c [Hc Hcls]].
  apply orb_false_iff in Hcls as [_ Hw]. apply negb_false_iff in Hw. eauto.
Qed.

Lemma valid_chunks_valid (is_word : char → bool) (chunks : list Document) :
  Forall (λ chunk, strip (page_content chunk) = page_content chunk
                   ∧ 50 < length (page_content chunk)
                   ∧ ∃ c, c ∈ page_content chunk ∧ is_word c = true)
    (valid_chunks is_word chunks).
Proof.
  induction chunks as [|chunk chunks IH]; simpl; [constructor |].
  destruct (valid_content is_word (strip (page_content chunk))) eqn:H; [| done].
  constructor; [| done]. simpl. split; [apply strip_idem |].
  by apply valid_content_true.
Qed.

(** ** [scrape_and_process_url] *)
Section ScraperProps.

Variable lower : str → str.
Variable is_word : char → bool.
Variable urlparse : str → str * str.
Variable robot_file_parser : str → RobotFileParser.
Variable goto : str → outcome Page.
Variable handle : str → outcome str.
Variable markdown_split_text :
  list (str * string) → bool → str → outcome (list Document).
Variable recursive_split_text :
  nat → nat → list str → str → outcome (list str).

Local Abbreviation scrape :=
  (scrape_and_process_url lower is_word urlparse robot_file_parser goto handle
     markdown_split_text recursive_split_text).
Local Abbreviation chunked :=
  (chunk_markdown markdown_split_text recursive_split_text).

Lemma scrape_unfold (url html selector_used page_title page_description md : str) :
  check_robots_txt urlparse robot_file_parser url = true →
  fetch goto url = Ok (html, selector_used, page_title, page_description) →
  html ≠ [] →
  handle html = Ok md →
  scrape url
  = if length (strip (clean_markdown_content lower md)) <? 100 then None
    else filtered is_word
           (chunked (base_metadata url page_title page_description selector_used)
              (clean_markdown_content lower md)).
Proof using Type.
  intros Hrobots Hfetch Hhtml Hhandle.
  unfold scrape_and_process_url, scrape_body. rewrite Hrobots, Hfetch.
  cbn [mbind outcome_bind]. destruct html as [|c html]; [done |].
  rewrite Hhandle. cbn [mbind outcome_bind].
  destruct (length (strip (clean_markdown_content lower md))) as [|n] eqn:Hn.
  - reflexivity.
  - cbn [Nat.eqb orb]. destruct (S n <? 100); [reflexivity |].
    unfold filtered. destruct (chunk_markdown _ _ _ _) as [chunks|]; [| reflexivity].
    cbn [mbind outcome_bind]. by destruct (valid_chunks is_word chunks).
Qed.

Lemma scrape_some (url : str) (result : list Document) :
  scrape url = Some result →
  result ≠ [] ∧ ∃ chunks, result = valid_chunks is_word chunks.
Proof using Type.
  unfold scrape_and_process_url, scrape_body.
  destruct (check_robots_txt _ _ _); [| discriminate].
  destruct (fetch goto url) as [[[[html sel] t] d]|]; [| discriminate].
  cbn [mbind outcome_bind]. destruct html as [|c html]; [discriminate |].
  destruct (handle _) as [md|]; [| discriminate]. cbn [mbind outcome_bind].
  destruct (_ || _); [discriminate |].
  destruct (chunk_markdown _ _ _ _) as [chunks|]; [| discriminate].
  cbn [mbind outcome_bind].
  destruct (valid_chunks is_word chunks) as [|v vs] eqn:Hv; [discriminate |].
  intros [= <-]. split; [congruence |]. exists chunks. by rewrite Hv.
Qed.

(** C3. Every chunk of a result of [scrape_and_process_url] other than
    [None] has a stripped [page_content] of more than 50 characters with a
    word character in it; and the result is never the empty list: when no
    chunk survives the final filter the function returns [None]. *)
Theorem scrape_result_valid (url : str) (result : list Document) :
  scrape url = Some result →
  result ≠ []
  ∧ Forall (λ chunk, strip (page_content chunk) = page_content chunk
                     ∧ 50 < length (page_content chunk)
                     ∧ ∃ c, c ∈ page_content chunk ∧ is_word c = true)
      result.
Proof using Type.
  intros H. apply scrape_some in H as [Hne [chunks ->]].
  split; [done | apply valid_chunks_valid].
Qed.

(** C2, as the code has it. When the stripped cleaned markdown is shorter
    than 100 characters [scrape_and_process_url] returns [None]; with 100
    characters or more the markdown is chunked, and the result is [None]
    only when chunking raises or no chunk survives the final filter. *)
Theorem short_markdown_is_none
    (url html selector_used page_title page_description md : str) :
  fetch goto url = Ok (html, selector_used, page_title, page_description) →
  handle html = Ok md →
  (length (strip (clean_markdown_content lower md)) < 100 →
   scrape url = None)
  ∧ (100 ≤ length (strip (clean_markdown_content lower md)) →
     check_robots_txt urlparse robot_file_parser url = true →
     html ≠ [] →
     scrape url
     = filtered is_word
         (chunked (base_metadata url page_title page_description selector_used)
            (clean_markdown_content lower md))).
Proof using Type.
  intros Hfetch Hhandle. split.
  - intros Hlen.
    destruct (check_robots_txt urlparse robot_file_parser url) eqn:Hrobots.
    + destruct (decide (html = [])) as [->|Hhtml].
      * unfold scrape_and_process_url, scrape_body.
        by rewrite Hrobots, Hfetch.
      * rewrite (scrape_unfold _ _ _ _ _ _ Hrobots Hfetch) by done.
        by replace (_ <? 100) with true by (symmetry; by apply Nat.ltb_lt).
    + unfold scrape_and_process_url. by rewrite Hrobots.
  - intros Hlen Hrobots Hhtml.
    rewrite (scrape_unfold _ _ _ _ _ _ Hrobots Hfetch) by done.
    by replace (_ <? 100) with false by (symmetry; by apply Nat.ltb_ge).
Qed.

End ScraperProps.

Lemma scrape_result_valid_witness :
  scrape_example (letters_html 100) (letters_markdown 100)
    [mkDocument (letters 100) ∅]
  = Some [mkDocument (letters 100) example_base]
  ∧ ([mkDocument (letters 100) example_base] ≠ []
     ∧ Forall (λ chunk, strip (page_content chunk) = page_content chunk
                        ∧ 50 < length (page_content chunk)
                        ∧ ∃ c, c ∈ page_content chunk ∧ ascii_word c = true)
         [mkDocument (letters 100) example_base]).
Proof.
  split; [vm_compute; reflexivity |].
  apply (scrape_result_valid ascii_lower ascii_word example_urlparse
           allowing_parser (page_with (letters_html 100))
           (handle_to (letters_markdown 100))
           (split_to [mkDocument (letters 100) ∅]) one_piece example_url).
  vm_compute. reflexivity.
Defined.

Lemma short_markdown_is_none_witness :
  scrape_example (letters_html 60) (letters_markdown 60)
    [mkDocument (letters 60) ∅] = None
  ∧ scrape_example (letters_html 100) (letters_markdown 100)
      [mkDocument (letters 100) ∅]
    = filtered ascii_word
        (chunk_markdown (split_to [mkDocument (letters 100) ∅]) one_piece
           example_base
           (clean_markdown_content ascii_lower (letters_markdown 100))).
Proof.
  split.
  - apply (proj1 (short_markdown_is_none ascii_lower ascii_word
                    example_urlparse allowing_parser
                    (page_with (letters_html 60))
                    (handle_to (letters_markdown 60))
                    (split_to [mkDocument (letters 60) ∅]) one_piece
                    example_url (letters_html 60) (u "article") (u "Example")
                    [] (letters_markdown 60) eq_refl eq_refl)).
    vm_compute. lia.
  - apply (proj2 (short_markdown_is_none ascii_lower ascii_word
                    example_urlparse allowing_parser
                    (page_with (letters_html 100))
                    (handle_to (letters_markdown 100))
                    (split_to [mkDocument (letters 100) ∅]) one_piece
                    example_url (letters_html 100) (u "article") (u "Example")
                    [] (letters_markdown 100) eq_refl eq_refl)).
    + vm_compute. lia.
    + reflexivity.
    + discriminate.
Defined.

(** C2 fails on the code in both directions. A page whose cleaned
    markdown has exactly 100 characters is chunked and returned; and a
    page with 120 characters of cleaned markdown, none of them a word
    character, gives [None]. *)
Lemma length_100_is_processed :
  (length (strip (clean_markdown_content ascii_lower (letters_markdown 100)))
   = 100
   ∧ scrape_example (letters_html 100) (letters_markdown 100)
       [mkDocument (letters 100) ∅]
     = Some [mkDocument (letters 100) example_base])
  ∧ (length (strip (clean_markdown_content ascii_lower (marks_markdown 120)))
     = 120
     ∧ scrape_example (letters_html 120) (marks_markdown 120)
         [mkDocument (replicate 120 33%N) ∅] = None).
Proof. vm_compute. repeat split; reflexivity. Qed.

(** ** The [section] field *)

Lemma annotate_section (base : gmap string str) (split : Document) :
  (base ∪ metadata split) !! "Header 1"%string = None →
  (base ∪ metadata split) !! "Header 2"%string = None →
  annotate base split = mkDocument (page_content split) (base ∪ metadata split).
Proof. unfold annotate. by intros -> ->. Qed.

Lemma base_metadata_keys (url page_title page_description selector_used : str)
    (key : string) :
  key ∉ ["source"; "title"; "description"; "selector_used"; "content_type"]%string →
  base_metadata url page_title page_description selector_used !! key = None.
Proof.
  intros H. unfold base_metadata.
  repeat (rewrite lookup_insert_ne by (intros <-; apply H; set_solver)).
  apply lookup_singleton_ne. intros <-. apply H. set_solver.
Qed.

(** No chunk of the header branch gets a [section]: the splitter writes
    the header texts under the names of [headers_to_split_on] ([H1], [H2],
    [H3]) and the loop looks them up under [Header 1] and [Header 2]. *)
Lemma section_never_set
    (recursive_split_text : nat → nat → list str → str → outcome (list str))
    (url page_title page_description selector_used : str)
    (splits chunks : list Document) :
  Forall (λ split, ∀ key, key ∉ map snd headers_to_split_on →
                          metadata split !! key = None) splits →
  header_chunks recursive_split_text
    (base_metadata url page_title page_description selector_used) splits
  = Ok chunks →
  Forall (λ chunk, metadata chunk !! "section"%string = None) chunks.
Proof.
  set (base := base_metadata url page_title page_description selector_used).
  assert (∀ split key,
            (∀ key, key ∉ map snd headers_to_split_on →
                    metadata split !! key = None) →
            key ∈ ["Header 1"; "Header 2"; "section"]%string →
            (base ∪ metadata split) !! key = None) as Hkey.
  { intros split key Hsplit Hin. apply lookup_union_None. split.
    - apply base_metadata_keys. intros Hk.
      repeat (apply elem_of_cons in Hin as [-> | Hin];
              [by repeat (apply elem_of_cons in Hk as [Hk | Hk];
                          [discriminate |]); inversion Hk |]).
      inversion Hin.
    - apply Hsplit. simpl. intros Hk.
      repeat (apply elem_of_cons in Hin as [-> | Hin];
              [by repeat (apply elem_of_cons in Hk as [Hk | Hk];
                          [discriminate |]); inversion Hk |]).
      inversion Hin. }
  intros Hsplits. revert chunks.
  induction Hsplits as [|split splits Hsplit _ IH]; intros chunks; simpl.
  - intros [= <-]. constructor.
  - rewrite annotate_section by (apply Hkey; [done | set_solver]).
    unfold split_documents. simpl.
    destruct (recursive_split_text _ _ _ _) as [pieces|]; [| discriminate].
    simpl. destruct (header_chunks _ _ _) as [more|]; [| discriminate].
    simpl. intros [= <-]. rewrite app_nil_r. apply Forall_app. split.
    + apply Forall_forall. intros chunk Hc.
      apply list_elem_of_fmap in Hc as [piece [-> _]]. simpl.
      apply Hkey; [done | set_solver].
    + by apply IH.
Qed.

(** C1 fails on the code. For a page with the header [# Introduction]
    the chunk comes from a split whose metadata has [H1] set to
    [Introduction]; the returned chunk still has that [H1] and has no
    [section]. *)
Theorem section_missing_for_header :
  clean_markdown_content ascii_lower intro_markdown = page_content intro_split
  ∧ metadata intro_split !! "H1"%string = Some (u "Introduction")
  ∧ scrape_example intro_html intro_markdown [intro_split]
    = Some [mkDocument (page_content intro_split)
              (example_base ∪ metadata intro_split)]
  ∧ (example_base ∪ metadata intro_split) !! "H1"%string
    = Some (u "Introduction")
  ∧ (example_base ∪ metadata intro_split) !! "section"%string = None.
Proof. vm_compute. repeat split; reflexivity. Qed.

(** ** [create_rag_summary] *)

Lemma min_from_spec (x : nat) (l : list nat) :
  Forall (λ y, min_from x l ≤ y) (x :: l) ∧ min_from x l ∈ x :: l.
Proof.
  unfold min_from. revert x. induction l as [|y l IH]; intros x; simpl.
  - split; [by repeat constructor | by left].
  - destruct (IH (x `min` y)) as [Hall Hin].
    inversion Hall as [|? ? Hhd Htl]; subst. split.
    + constructor; [lia |]. constructor; [lia | done].
    + apply elem_of_cons in Hin as [Hin | Hin].
      * rewrite Hin. destruct (Nat.min_dec x y) as [-> | ->];
          [by left | right; by left].
      * right. by right.
Qed.

Lemma max_from_spec (x : nat) (l : list nat) :
  Forall (λ y, y ≤ max_from x l) (x :: l) ∧ max_from x l ∈ x :: l.
Proof.
  unfold max_from. revert x. induction l as [|y l IH]; intros x; simpl.
  - split; [by repeat constructor | by left].
  - destruct (IH (x `max` y)) as [Hall Hin].
    inversion Hall as [|? ? Hhd Htl]; subst. split.
    + constructor; [lia |]. constructor; [lia | done].
    + apply elem_of_cons in Hin as [Hin | Hin].
      * rewrite Hin. destruct (Nat.max_dec x y) as [-> | ->];
          [by left | right; by left].
      * right. by right.
Qed.

Lemma source_of_present (chunks : list Document) :
  Forall (λ chunk, is_Some (metadata chunk !! "source"%string)) chunks →
  map source_of chunks
  = omap (λ chunk, metadata chunk !! "source"%string) chunks.
Proof.
  induction 1 as [|chunk chunks [src Hsrc] _ IH]; [reflexivity |].
  simpl. unfold source_of at 1. rewrite Hsrc. simpl. by rewrite IH.
Qed.

(** C7, as the code has it. For the empty list [create_rag_summary]
    returns the error result. For a list with a first chunk it returns a
    summary whose [total_documents] is the length of the list, whose
    [unique_sources] is the number of distinct sources, a chunk without a
    source counting as the source [Unknown] (so it is the number of
    distinct [source] values when every chunk has one), whose minimum,
    maximum and total are those of the content lengths, and whose average
    is the float quotient of total and count rounded to two decimals. *)
Theorem create_rag_summary_spec (first : Document) (others : list Document) :
  create_rag_summary [] = SummaryError "No chunks available"
  ∧ ∃ s, create_rag_summary (first :: others) = Summary s
      ∧ total_documents s = length (first :: others)
      ∧ unique_sources s
        = size (list_to_set (map source_of (first :: others)) : gset str)
      ∧ (Forall (λ chunk, is_Some (metadata chunk !! "source"%string))
           (first :: others) →
         unique_sources s = spec_unique_sources (first :: others))
      ∧ Forall (λ chunk,
                  min_chunk_length (stats s) ≤ length (page_content chunk)
                  ∧ length (page_content chunk) ≤ max_chunk_length (stats s))
          (first :: others)
      ∧ (∃ chunk, chunk ∈ first :: others
           ∧ min_chunk_length (stats s) = length (page_content chunk))
      ∧ (∃ chunk, chunk ∈ first :: others
           ∧ max_chunk_length (stats s) = length (page_content chunk))
      ∧ total_characters (stats s)
        = py_sum (map (λ chunk, length (page_content chunk)) (first :: others))
      ∧ avg_chunk_length (stats s)
        = round2
            (true_div
               (Z.of_nat (py_sum (map (λ chunk, length (page_content chunk))
                                    (first :: others))))
               (Z.of_nat (length (first :: others)))).
Proof.
  split; [reflexivity |]. eexists. split; [reflexivity |].
  cbn [total_documents unique_sources stats min_chunk_length max_chunk_length
       total_characters avg_chunk_length].
  set (lens := map (λ chunk, length (page_content chunk)) others).
  destruct (min_from_spec (length (page_content first)) lens) as [Hmin Hmin_in].
  destruct (max_from_spec (length (page_content first)) lens) as [Hmax Hmax_in].
  change (length (page_content first) :: lens)
    with (map (λ chunk, length (page_content chunk)) (first :: others)) in *.
  repeat split.
  - intros Hall. unfold spec_unique_sources. by rewrite source_of_present.
  - rewrite Forall_fmap in Hmin, Hmax. rewrite Forall_forall in Hmin, Hmax.
    apply Forall_forall. intros chunk Hin.
    split; [apply (Hmin chunk Hin) | apply (Hmax chunk Hin)].
  - apply list_elem_of_fmap in Hmin_in as [chunk [? ?]]. by exists chunk.
  - apply list_elem_of_fmap in Hmax_in as [chunk [? ?]]. by exists chunk.
  - by rewrite length_map.
Qed.

Lemma create_rag_summary_spec_witness :
  ∃ s, create_rag_summary
         [mkDocument (u "a") {[ "source"%string := u "x" ]};
          mkDocument (u "bcd") {[ "source"%string := u "x" ]}] = Summary s
    ∧ unique_sources s
      = spec_unique_sources
          [mkDocument (u "a") {[ "source"%string := u "x" ]};
           mkDocument (u "bcd") {[ "source"%string := u "x" ]}].
Proof.
  destruct (proj2 (create_rag_summary_spec
                     (mkDocument (u "a") {[ "source"%string := u "x" ]})
                     [mkDocument (u "bcd") {[ "source"%string := u "x" ]}]))
    as [s [Hs [_ [_ [Hsrc _]]]]].
  exists s. split; [exact Hs |]. apply Hsrc.
  repeat constructor; vm_compute; eauto.
Defined.

(** C7 fails on the code. For three chunks of 1, 1 and 2 characters, one
    of them with the source [x] and two with none, [unique_sources] is 2
    where the chunks have one [source] value, and [avg_chunk_length] is
    the float 1.33, which is neither 4/3 nor the float quotient 4 / 3. *)
Lemma rag_summary_not_as_claimed :
  ∃ s, create_rag_summary example_chunks = Summary s
    ∧ spec_unique_sources example_chunks = 1
    ∧ unique_sources s = 2
    ∧ py_sum (map (λ chunk, length (page_content chunk)) example_chunks) = 4
    ∧ length example_chunks = 3
    ∧ avg_chunk_length (stats s) = mkFloat 5989787504402760 (-52)
    ∧ ¬ float_is (avg_chunk_length (stats s)) 4 3
    ∧ avg_chunk_length (stats s) ≠ true_div 4 3.
Proof.
  eexists. split; [reflexivity |].
  repeat split; try (vm_compute; reflexivity); vm_compute; discriminate.
Qed.

(** * Further properties *)

(** ** [re_sub] in general *)

(** A substitution whose replacement is no longer than the shortest
    match never lengthens the text. *)
Lemma sub_go_length (p : list item) (repl : str) (bos : bool) (s : str) :
  length repl ≤ min_length p →
  length (sub_go p repl bos 0 s) ≤ length s.
Proof.
  intros Hrepl. remember (length s) as n eqn:Hn. revert bos s Hn.
  induction n as [n IH] using lt_wf_ind. intros bos s ->.
  destruct s as [|c s]; [by rewrite sub_go_nil |].
  destruct (match_here p bos (c :: s)) as [[|k]|] eqn:Hm.
  - cbn [sub_go]. rewrite Hm. simpl.
    specialize (IH (length s) ltac:(simpl; lia) false s eq_refl). lia.
  - rewrite (sub_go_hit _ _ _ _ _ Hm). rewrite length_app.
    pose proof (match_here_min _ _ _ _ Hm).
    pose proof (match_here_le _ _ _ _ Hm) as Hle. simpl in Hle.
    assert (length (drop (S k) (c :: s)) = length s - k) as Hd
      by (rewrite length_drop; simpl; lia).
    specialize (IH (length s - k) ltac:(simpl; lia) false _ (eq_sym Hd)).
    simpl length at 3. lia.
  - rewrite (sub_go_miss _ _ _ _ _ Hm). simpl.
    specialize (IH (length s) ltac:(simpl; lia) false s eq_refl). lia.
Qed.

Lemma re_sub_length (p : list item) (repl : str) (s : str) :
  length repl ≤ min_length p → length (re_sub p repl s) ≤ length s.
Proof. apply sub_go_length. Qed.

(** Deleting every character of a class is a [filter]. *)
Lemma sub_go_delete (cls : char → bool) (bos : bool) (s : str) :
  sub_go [one cls] [] bos 0 s = List.filter (λ c, negb (cls c)) s.
Proof.
  revert bos. induction s as [|c s IH]; intros bos; [apply sub_go_nil |].
  pose proof (match_here_one cls bos c s) as Hm.
  simpl List.filter. destruct (cls c).
  - rewrite (sub_go_hit _ _ _ _ 0 Hm). simpl drop. rewrite drop_0.
    by rewrite IH.
  - rewrite (sub_go_miss _ _ _ _ _ Hm). by rewrite IH.
Qed.

(** A pattern that starts with one character of a class changes nothing
    in a text without such a character. *)
Lemma sub_go_absent (cls : char → bool) (p : list item) (repl : str)
    (bos : bool) (s : str) :
  Forall (λ c, cls c = false) s →
  sub_go (one cls :: p) repl bos 0 s = s.
Proof.
  intros H. revert bos. induction H as [|c s Hc _ IH]; intros bos.
  - apply sub_go_nil.
  - rewrite sub_go_miss; [by rewrite IH |].
    unfold one. cbn [match_here run capped]. rewrite Hc. reflexivity.
Qed.

Lemma collapse_absent (cls : char → bool) (lo : nat) (repl : str) (s : str) :
  0 < lo → Forall (λ c, cls c = false) s → collapse cls lo repl s = s.
Proof.
  intros Hlo H. induction H as [|c s Hc _ IH].
  - unfold collapse. apply sub_go_nil.
  - rewrite collapse_miss; [by rewrite IH |]. simpl. rewrite Hc. lia.
Qed.

(** The characters of the result come from the text or the replacement. *)
Lemma collapse_Forall (P : char → Prop) (cls : char → bool) (lo : nat)
    (repl : str) (s : str) :
  0 < lo → Forall P repl → Forall P s → Forall P (collapse cls lo repl s).
Proof.
  intros Hlo Hrepl. revert s.
  apply (collapse_ind cls lo repl Hlo (λ s o, Forall P s → Forall P o)).
  - done.
  - intros s _ IH Hs. apply Forall_app. split; [done |].
    apply IH. by apply Forall_drop.
  - intros c s _ IH Hs. inversion Hs; subst. constructor; auto.
Qed.

(** A text without a run of [lo] characters [c] is left as it is. *)
Lemma collapse_fixed (c : char) (lo : nat) (repl : str) (s : str) :
  0 < lo → runs_below c lo s → collapse (chr c) lo repl s = s.
Proof.
  intros Hlo. revert s.
  apply (collapse_ind (chr c) lo repl Hlo (λ s o, runs_below c lo s → o = s)).
  - done.
  - intros s Hrun _ Hs. destruct s as [|a s]; [simpl in Hrun; lia |].
    destruct Hs as [Hs _]. lia.
  - intros a s _ IH [_ Hs]. by rewrite IH.
Qed.

(** *** Collapsing runs of [k] or more to [k] *)

Lemma run_replicate_app (c : char) (k : nat) (t : str) :
  run (chr c) (replicate k c ++ t) = k + run (chr c) t.
Proof. induction k as [|k IH]; simpl; [done |]. by rewrite chr_refl, IH. Qed.

Lemma runs_below_replicate (c : char) (n k : nat) (t : str) :
  k < n → run (chr c) t = 0 → runs_below c n t →
  runs_below c n (replicate k c ++ t).
Proof.
  intros Hk Hrun Ht. induction k as [|k IH]; [done |].
  split; [| apply IH; lia].
  change (c :: replicate k c ++ t) with (replicate (S k) c ++ t).
  rewrite run_replicate_app. lia.
Qed.

Lemma collapse_same_own (c : char) (k : nat) (s : str) :
  0 < k →
  run (chr c) (collapse (chr c) k (replicate k c) s) = Nat.min k (run (chr c) s)
  ∧ runs_below c (S k) (collapse (chr c) k (replicate k c) s).
Proof.
  intros Hk. apply (collapse_ind (chr c) k (replicate k c) Hk).
  - split; [simpl; lia | done].
  - intros t Hrun [IH1 IH2]. rewrite run_drop_run in IH1.
    rewrite run_replicate_app, IH1. split; [lia |].
    apply runs_below_replicate; [lia | lia | done].
  - intros a t Hrun [IH1 IH2]. cbn [run runs_below] in *.
    destruct (chr c a); (split; [| split]); try done; lia.
Qed.

Lemma collapse_same_run_le (c c' : char) (k : nat) (s : str) :
  c' ≠ c → 0 < k →
  run (chr c') (collapse (chr c) k (replicate k c) s) ≤ run (chr c') s.
Proof.
  intros Hc Hk.
  apply (collapse_ind (chr c) k (replicate k c) Hk
           (λ s o, run (chr c') o ≤ run (chr c') s)).
  - done.
  - intros t Hrun _. destruct k; [lia |]. simpl. chr_off. lia.
  - intros b t _ IH. simpl. destruct (chr c' b); lia.
Qed.

Lemma collapse_same_other (c c' : char) (k n : nat) (s : str) :
  c' ≠ c → 0 < k →
  runs_below c' n s → runs_below c' n (collapse (chr c) k (replicate k c) s).
Proof.
  intros Hc Hk. revert s.
  apply (collapse_ind (chr c) k (replicate k c) Hk
           (λ s o, runs_below c' n s → runs_below c' n o)).
  - done.
  - intros t Hrun IH Ht. destruct t as [|a t]; [simpl in Hrun; lia |].
    pose proof (runs_below_pos _ _ _ _ Ht).
    apply runs_below_free; [done | | apply IH; by apply runs_below_drop].
    intros Hin. apply elem_of_replicate in Hin as [? _]. done.
  - intros a t _ IH [H1 H2]. split; [| by apply IH].
    pose proof (collapse_same_run_le c c' k t Hc Hk).
    simpl in *. destruct (chr c' a); lia.
Qed.

(** ** [clean_text] *)

Lemma Forall_bfilter (P : char → Prop) (f : char → bool) (s : str) :
  Forall P s → Forall P (List.filter f s).
Proof.
  rewrite !Forall_forall. intros H c Hc. apply H.
  apply list_elem_of_In. apply list_elem_of_In, filter_In in Hc. tauto.
Qed.

Lemma bfilter_false (f : char → bool) (s : str) :
  Forall (λ c, f c = true) (List.filter f s).
Proof.
  apply Forall_forall. intros c Hc.
  apply list_elem_of_In, filter_In in Hc. tauto.
Qed.

Lemma strip_length (s : str) : length (strip s) ≤ length s.
Proof.
  destruct (strip_decompose s) as [pre [post Hs]].
  rewrite Hs at 2. rewrite !length_app. lia.
Qed.

Lemma strip_Forall (P : char → Prop) (s : str) :
  Forall P s → Forall P (strip s).
Proof.
  rewrite !Forall_forall. intros H c Hc. by apply H, strip_elem.
Qed.

(** After [re.sub(r'\s+', ' ', text)] the only whitespace is U+0020. *)
Lemma spaces_collapsed (s : str) :
  Forall (λ c, isspace c = true → c = 32%N) (collapse isspace 1 [32%N] s).
Proof.
  apply (collapse_ind isspace 1 [32%N] ltac:(lia)
           (λ _ o, Forall (λ c, isspace c = true → c = 32%N) o)).
  - constructor.
  - intros t _ IH. by constructor.
  - intros c t Hrun IH. constructor; [| done].
    simpl in Hrun. destruct (isspace c); [lia | discriminate].
Qed.

(** The text between the second and the fifth substitution of
    [clean_text]: the third and the fourth find nothing to replace, since
    the first has left no newline and no tab. *)
Lemma clean_text_steps (a : char) (s : str) :
  clean_text (a :: s)
  = strip (collapse (chr HYPHEN) 3 (replicate 3 HYPHEN)
             (collapse (chr DOT) 3 (replicate 3 DOT)
                (List.filter (λ c, negb (control_char c))
                   (collapse isspace 1 [32%N] (a :: s))))).
Proof.
  unfold clean_text, plus, at_least.
  rewrite (re_sub_collapse isspace 1).
  set (t1 := collapse isspace 1 (u " ") (a :: s)).
  assert (Forall (λ c, isspace c = true → c = 32%N) t1) as H1
    by apply spaces_collapsed.
  unfold re_sub at 5. rewrite sub_go_delete.
  set (t2 := List.filter (λ c, negb (control_char c)) t1).
  assert (Forall (λ c, isspace c = true → c = 32%N) t2) as H2
    by by apply Forall_bfilter.
  unfold re_sub at 4. rewrite sub_go_absent.
  2:{ eapply Forall_impl; [exact H2 |]. intros c Hc.
      apply chr_false. intros ->. by specialize (Hc eq_refl). }
  rewrite (re_sub_collapse (chr TAB) 1), collapse_absent; [| lia |].
  2:{ eapply Forall_impl; [exact H2 |]. intros c Hc.
      apply chr_false. intros ->. by specialize (Hc eq_refl). }
  by rewrite !re_sub_collapse.
Qed.

(** [clean_text] gives one line of text: the only whitespace character of
    the result is the space U+0020 (no newline, no tab), and the result
    has no control character of the class that the function removes. *)
Theorem clean_text_single_line (text : str) :
  (LF ∉ clean_text text)
  ∧ (TAB ∉ clean_text text)
  ∧ Forall (λ c, (isspace c = true → c = 32%N) ∧ control_char c = false)
      (clean_text text).
Proof.
  assert (Forall (λ c, (isspace c = true → c = 32%N) ∧ control_char c = false)
            (clean_text text)) as H.
  { destruct text as [|a s]; [constructor |]. rewrite clean_text_steps.
    apply strip_Forall.
    apply collapse_Forall; [lia | by repeat constructor |].
    apply collapse_Forall; [lia | by repeat constructor |].
    apply Forall_and. split.
    - apply Forall_bfilter, spaces_collapsed.
    - eapply Forall_impl; [apply bfilter_false |].
      intros c Hc. by apply negb_true_iff in Hc. }
  rewrite Forall_forall in H.
  repeat split; [| | by apply Forall_forall];
    intros Hin; by destruct (H _ Hin) as [Hs _]; specialize (Hs eq_refl).
Qed.

(** [clean_text] never lengthens a text, and its result is stripped. *)
Theorem clean_text_shrinks (text : str) :
  length (clean_text text) ≤ length text
  ∧ strip (clean_text text) = clean_text text.
Proof.
  destruct text as [|a s]; [by split |]. split.
  - unfold clean_text. etrans; [apply strip_length |].
    repeat (etrans; [apply re_sub_length; simpl; lia |]). done.
  - unfold clean_text. apply strip_idem.
Qed.

(** The result of [clean_text] has no run of four or more dots and none
    of four or more hyphens. *)
Theorem clean_text_punctuation (text : str) (k : nat) :
  ¬ contains (replicate (4 + k) DOT) (clean_text text)
  ∧ ¬ contains (replicate (4 + k) HYPHEN) (clean_text text).
Proof.
  assert (runs_below DOT 4 (clean_text text)
          ∧ runs_below HYPHEN 4 (clean_text text)) as [Hd Hh].
  { destruct text as [|a s]; [by split |]. rewrite clean_text_steps.
    split; apply runs_below_strip.
    - apply collapse_same_other; [done | lia |].
      apply collapse_same_own. lia.
    - apply collapse_same_own. lia. }
  split; apply runs_below_contains; try lia;
    (eapply runs_below_mono; [| eassumption]); lia.
Qed.

(** ** More on [clean_markdown_content] *)

Lemma clean_lines_not_skipped (lower : str → str) (lines : list str) :
  Forall (λ line, skipped lower line = false) (clean_lines lower lines).
Proof.
  induction lines as [|line lines IH]; simpl; [constructor |].
  destruct (skipped lower (strip line)) eqn:Hs; [done | by constructor].
Qed.

Lemma clean_lines_fixed (lower : str → str) (lines : list str) :
  Forall (λ line, strip line = line ∧ skipped lower line = false) lines →
  clean_lines lower lines = lines.
Proof.
  induction 1 as [|line lines [Hstrip Hskip] _ IH]; [reflexivity |].
  simpl. rewrite Hstrip, Hskip. by rewrite IH.
Qed.

(** The output as the list of its lines, with all that the loop has
    checked on each of them. *)
Lemma clean_markdown_kept (lower : str → str) (s : str) :
  ∃ lines, clean_markdown_content lower s = join LF lines
    ∧ Forall (λ line, (LF ∉ line) ∧ 3 ≤ length line ∧ strip line = line
                      ∧ skipped lower line = false) lines.
Proof.
  destruct s as [|c s].
  { exists []. by split. }
  unfold clean_markdown_content. eexists. split; [reflexivity |].
  set (lines := split LF _).
  pose proof (clean_lines_kept lower (λ l, LF ∉ l) lines) as H1.
  pose proof (clean_lines_not_skipped lower lines) as H2.
  assert (Forall (λ line, LF ∉ strip line) lines) as H0.
  { eapply Forall_impl; [apply split_free |].
    intros l Hl Hin. by apply Hl, strip_elem. }
  specialize (H1 H0). clear H0.
  rewrite Forall_forall in H1, H2. apply Forall_forall. intros l Hl.
  destruct (H1 l Hl) as [? [? ?]]. repeat split; auto.
Qed.

(** No line of the output starts (in lower case) with a navigation marker,
    consists only of whitespace, pipes and hyphens, or has more than five
    pipes. *)
Theorem clean_markdown_content_no_navigation (lower : str → str)
    (markdown_text : str) :
  clean_markdown_content lower markdown_text = []
  ∨ Forall (λ line, startswith nav_markers (lower line) = false
                    ∧ re_match [Bol; plus (λ c, isspace c || (c =? PIPE)%N
                                                || (c =? HYPHEN)%N); Eol] line
                      = false
                    ∧ count PIPE line ≤ 5)
      (split LF (clean_markdown_content lower markdown_text)).
Proof.
  destruct (clean_markdown_kept lower markdown_text) as [lines [-> H]].
  destruct lines as [|l ls]; [by left | right].
  rewrite split_join; [| done |].
  - eapply Forall_impl; [exact H |]. intros line [_ [_ [_ Hs]]].
    unfold skipped in Hs. rewrite !orb_false_iff in Hs.
    destruct Hs as [[[_ Hnav] Hre] Hpipes]. apply Nat.ltb_ge in Hpipes.
    done.
  - eapply Forall_impl; [exact H |]. by intros line [Hl _].
Qed.

(** Cleaning twice is cleaning once. *)
Theorem clean_markdown_content_idempotent (lower : str → str)
    (markdown_text : str) :
  clean_markdown_content lower (clean_markdown_content lower markdown_text)
  = clean_markdown_content lower markdown_text.
Proof.
  pose proof (clean_markdown_newlines lower markdown_text) as Hnl.
  pose proof (clean_markdown_runs lower STAR markdown_text (or_introl eq_refl))
    as Hstar.
  pose proof (clean_markdown_runs lower UNDERSCORE markdown_text
                (or_intror eq_refl)) as Hund.
  destruct (clean_markdown_kept lower markdown_text) as [lines [E H]].
  rewrite E in *. destruct (join LF lines) as [|a out] eqn:Hout; [done |].
  unfold clean_markdown_content at 1. unfold at_least.
  rewrite !re_sub_collapse.
  rewrite (collapse_fixed LF 3); [| lia | by apply (runs_below_mono LF 2); [lia |]].
  rewrite (collapse_fixed STAR 3); [| lia | done].
  rewrite (collapse_fixed UNDERSCORE 3); [| lia | done].
  rewrite <- Hout. destruct lines as [|l ls]; [done |].
  rewrite split_join; [| done |].
  - rewrite clean_lines_fixed; [done |].
    eapply Forall_impl; [exact H |]. by intros line [_ [_ [? ?]]].
  - eapply Forall_impl; [exact H |]. by intros line [? _].
Qed.

Lemma lstrip_strip (s : str) : lstrip (strip s) = strip s.
Proof.
  unfold strip.
  destruct (rstrip_decompose (lstrip s)) as [post [Ht _]].
  destruct (rstrip (lstrip s)) as [|c t] eqn:E; [reflexivity |].
  apply lstrip_id. eapply lstrip_head. rewrite Ht. reflexivity.
Qed.

Lemma rstrip_strip (s : str) : rstrip (strip s) = strip s.
Proof. apply rstrip_idem. Qed.

Lemma lstrip_app (l t : str) :
  l ≠ [] → lstrip l = l → lstrip (l ++ t) = l ++ t.
Proof.
  destruct l as [|c l]; [done |]. intros _ H.
  apply lstrip_head in H. simpl. by rewrite H.
Qed.

Lemma rstrip_app (t l : str) :
  l ≠ [] → rstrip l = l → rstrip (t ++ l) = t ++ l.
Proof.
  intros Hne H. unfold rstrip in *.
  assert (lstrip (rev l) = rev l) as Hl.
  { rewrite <- H at 2. by rewrite rev_involutive. }
  rewrite rev_app_distr, lstrip_app; [| | done].
  - by rewrite <- rev_app_distr, rev_involutive.
  - intros Hr. apply Hne. by rewrite <- (rev_involutive l), Hr.
Qed.

Lemma join_first (sep : char) (l : str) (ls : list str) :
  ∃ t, join sep (l :: ls) = l ++ t.
Proof.
  destruct ls as [|l' ls]; [exists []; simpl; by rewrite app_nil_r |].
  eexists. by rewrite join_cons.
Qed.

Lemma join_last (sep : char) (ls : list str) (l : str) :
  ∃ t, join sep (ls ++ [l]) = t ++ l.
Proof.
  induction ls as [|l' ls [t IH]]; [by exists [] |].
  change ((l' :: ls) ++ [l]) with (l' :: (ls ++ [l])).
  rewrite join_cons by (by destruct ls). rewrite IH.
  exists (l' ++ sep :: t). by rewrite <- app_assoc.
Qed.

(** The output of [clean_markdown_content] has no whitespace at its ends:
    stripping it, as the length test of [scrape_and_process_url] does,
    changes nothing. *)
Theorem clean_markdown_content_stripped (lower : str → str)
    (markdown_text : str) :
  strip (clean_markdown_content lower markdown_text)
  = clean_markdown_content lower markdown_text.
Proof.
  destruct (clean_markdown_kept lower markdown_text) as [lines [-> H]].
  assert (Forall (λ line, line ≠ [] ∧ lstrip line = line ∧ rstrip line = line)
            lines) as H'.
  { eapply Forall_impl; [exact H |]. intros line [_ [Hlen [Hs _]]].
    repeat split.
    - intros ->. simpl in Hlen. lia.
    - rewrite <- Hs. apply lstrip_strip.
    - rewrite <- Hs. apply rstrip_strip. }
  clear H. destruct lines as [|l ls]; [reflexivity |]. unfold strip.
  assert (lstrip (join LF (l :: ls)) = join LF (l :: ls)) as ->.
  { inversion H' as [|? ? [Hne [Hl _]] _]; subst.
    destruct (join_first LF l ls) as [t ->]. by apply lstrip_app. }
  destruct (exists_last (l:=l :: ls) ltac:(done)) as [ls' [l' E]].
  rewrite E in *. apply Forall_app in H' as [_ H'].
  inversion H' as [|? ? [Hne [_ Hr]] _]; subst.
  destruct (join_last LF ls' l') as [t ->]. by apply rstrip_app.
Qed.

(** ** More on [sanitize_filename] *)

(** A pattern with the literal character [c] matches only where [c]
    occurs. *)
Lemma match_here_needs (c : char) (p : list item) (bos : bool) (s : str)
    (n : nat) :
  In (one (chr c)) p → match_here p bos s = Some n → c ∈ s.
Proof.
  revert bos s n. induction p as [|i p IH]; intros bos s n; [done |].
  intros [-> | Hin].
  - unfold one. simpl. intros H.
    apply backtrack_some in H as [m [Hm [Hlo _]]].
    destruct s as [|x s]; [simpl in Hm; lia |]. simpl in Hm.
    destruct (chr c x) eqn:Hx; [| lia]. apply chr_true in Hx as ->. by left.
  - destruct i as [| |cls lo hi]; simpl.
    + destruct bos; [by apply IH | discriminate].
    + destruct s as [|x [|y s]]; [by apply IH | | discriminate].
      destruct (x =? LF)%N; [by apply IH | discriminate].
    + intros H. apply backtrack_some in H as [m [_ [_ Hk]]].
      destruct (match_here p _ (drop m s)) as [r|] eqn:Hr; [| discriminate].
      apply (IH _ _ _ Hin) in Hr.
      rewrite <- (take_drop m s). apply elem_of_app. by right.
Qed.

Lemma sanitize_filename_safe (url : str) :
  Forall (λ c, unsafe_char c = false) (sanitize_filename url).
Proof.
  rewrite sanitize_filename_map. apply Forall_take, Forall_forall.
  intros c Hc. apply list_elem_of_fmap in Hc as [x [-> _]].
  apply replace_unsafe_safe.
Qed.

(** A name that [sanitize_filename] has made is left as it is: the
    function is idempotent. *)
Theorem sanitize_filename_idempotent (url : str) :
  sanitize_filename (sanitize_filename url) = sanitize_filename url.
Proof.
  pose proof (sanitize_filename_safe url) as Hsafe.
  assert (length (sanitize_filename url) ≤ 100) as Hlen
    by (rewrite sanitize_filename_map, length_take; lia).
  generalize dependent (sanitize_filename url). intros r Hsafe Hlen.
  rewrite sanitize_filename_map.
  assert (re_sub (Bol :: lit "http" ++ [opt (chr 115)] ++ lit "://") [] r = r)
    as ->.
  { unfold re_sub. destruct r as [|c r]; [apply sub_go_nil |].
    set (P := Bol :: lit "http" ++ [opt (chr 115)] ++ lit "://").
    destruct (match_here P true (c :: r)) as [n|] eqn:Hm.
    - exfalso. apply (match_here_needs 58) in Hm; [| simpl; tauto].
      rewrite Forall_forall in Hsafe. by specialize (Hsafe _ Hm).
    - rewrite (sub_go_miss _ _ _ _ _ Hm). unfold P. by rewrite sub_go_bol. }
  assert (map replace_unsafe r = r) as ->.
  { clear Hlen. induction Hsafe as [|c r Hc _ IH]; [reflexivity |].
    simpl. unfold replace_unsafe at 1. by rewrite Hc, IH. }
  by apply take_ge.
Qed.

(** ** The page fetcher *)

Lemma select_content_first (page : Page) (selectors : list str) (html : str)
    (selector : str) :
  select_content page selectors = Ok (html, Some selector) →
  ∃ pre post, selectors = pre ++ selector :: post
    ∧ Forall (λ s, locator_count page s = 0) pre
    ∧ 0 < locator_count page selector
    ∧ first_inner_html page selector = Ok html.
Proof.
  induction selectors as [|s selectors IH]; simpl; [discriminate |].
  destruct (0 <? locator_count page s) eqn:Hs.
  - apply Nat.ltb_lt in Hs.
    destruct (first_inner_html page s) as [h|] eqn:Hh; simpl; [| discriminate].
    intros [= -> ->]. exists [], selectors. repeat split; auto.
  - apply Nat.ltb_ge in Hs. intros H.
    destruct (IH H) as [pre [post [-> [Hpre [Hc Hh]]]]].
    exists (s :: pre), post. repeat split; auto. constructor; [lia | done].
Qed.

(** The first selector of the list that matches an element wins, and the
    body is the fallback: when [fetch] gives a selector other than [body],
    no selector before it in [content_selectors] matches anything, it
    matches, and the HTML is the non-empty inner HTML of its first
    element; otherwise the HTML is that of the body. The title is never
    empty. *)
Theorem fetch_first_selector (goto : str → outcome Page) (url : str)
    (page : Page) (html selector_used page_title page_description : str) :
  goto url = Ok page →
  fetch goto url = Ok (html, selector_used, page_title, page_description) →
  page_title ≠ []
  ∧ ((selector_used = u "body" ∧ inner_html page (u "body") = Ok html)
     ∨ (html ≠ []
        ∧ ∃ pre post, content_selectors = pre ++ selector_used :: post
            ∧ Forall (λ s, locator_count page s = 0) pre
            ∧ 0 < locator_count page selector_used
            ∧ first_inner_html page selector_used = Ok html)).
Proof.
  intros Hgoto. unfold fetch. rewrite Hgoto. cbn [mbind outcome_bind].
  destruct (select_content page content_selectors) as [[h sel]|] eqn:Hsel;
    cbn [mbind outcome_bind]; [| discriminate].
  destruct h as [|c h]; [| destruct sel as [selector|]];
    cbn [mbind outcome_bind];
    try (destruct (inner_html page (u "body")) as [b|] eqn:Hb;
         cbn [mbind outcome_bind]; [| discriminate]);
    (destruct (title page) as [t|]; cbn [mbind outcome_bind];
     [| discriminate]);
    (destruct (close page); cbn [mbind outcome_bind]; [| discriminate]);
    cbn [fst snd]; intros H; injection H as <- <- <- _;
    (split; [by destruct t |]).
  - by left.
  - right. split; [done |]. by apply select_content_first.
  - by left.
Qed.

Lemma fetch_first_selector_witness :
  u "Example" ≠ []
  ∧ ((u "article" = u "body"
      ∧ inner_html (example_page (letters_html 100)) (u "body")
        = Ok (letters_html 100))
     ∨ (letters_html 100 ≠ []
        ∧ ∃ pre post, content_selectors = pre ++ u "article" :: post
            ∧ Forall (λ s, locator_count (example_page (letters_html 100)) s = 0)
                pre
            ∧ 0 < locator_count (example_page (letters_html 100)) (u "article")
            ∧ first_inner_html (example_page (letters_html 100)) (u "article")
              = Ok (letters_html 100))).
Proof.
  apply (fetch_first_selector (page_with (letters_html 100)) example_url
           (example_page (letters_html 100)) (letters_html 100) (u "article")
           (u "Example") [] eq_refl eq_refl).
Defined.

(** ** Metadata of the chunks *)

Lemma base_metadata_section
    (url page_title page_description selector_used : str) :
  base_metadata url page_title page_description selector_used
  !! "section"%string = None.
Proof.
  apply base_metadata_keys. intros Hin.
  repeat (apply elem_of_cons in Hin as [Hin | Hin]; [discriminate |]).
  inversion Hin.
Qed.

Lemma create_documents_metadata
    (recursive_split_text : nat → nat → list str → str → outcome (list str))
    (Q : gmap string str → Prop) (texts : list (str * gmap string str))
    (docs : list Document) :
  Forall (λ text, Q text.2) texts →
  create_documents recursive_split_text texts = Ok docs →
  Forall (λ doc, Q (metadata doc)) docs.
Proof.
  intros H. revert docs. induction H as [|[text meta] texts HQ _ IH];
    intros docs; simpl.
  - intros [= <-]. constructor.
  - destruct (recursive_split_text _ _ _ _) as [pieces|]; [| discriminate].
    cbn [mbind outcome_bind].
    destruct (create_documents _ texts) as [more|]; [| discriminate].
    cbn [mbind outcome_bind]. intros [= <-]. apply Forall_app. split.
    + apply Forall_forall. intros doc Hdoc.
      apply list_elem_of_fmap in Hdoc as [piece [-> _]]. exact HQ.
    + by apply IH.
Qed.

Lemma annotate_keeps_base (base : gmap string str) (split : Document) :
  base !! "section"%string = None →
  base ⊆ metadata (annotate base split).
Proof.
  intros Hsec. unfold annotate.
  destruct (str_or _ _); simpl.
  - apply map_union_subseteq_l.
  - apply insert_subseteq_r; [done | apply map_union_subseteq_l].
Qed.

Lemma header_chunks_base
    (recursive_split_text : nat → nat → list str → str → outcome (list str))
    (base : gmap string str) (splits chunks : list Document) :
  base !! "section"%string = None →
  header_chunks recursive_split_text base splits = Ok chunks →
  Forall (λ chunk, base ⊆ metadata chunk) chunks.
Proof.
  intros Hsec. revert chunks.
  induction splits as [|split splits IH]; intros chunks; simpl.
  - intros [= <-]. constructor.
  - destruct (split_documents _ _) as [further|] eqn:Hf; [| discriminate].
    cbn [mbind outcome_bind].
    destruct (header_chunks _ _ splits) as [more|]; [| discriminate].
    cbn [mbind outcome_bind]. intros [= <-]. apply Forall_app. split.
    + unfold split_documents in Hf.
      eapply (create_documents_metadata _ (λ m, base ⊆ m)); [| exact Hf].
      repeat constructor. simpl. by apply annotate_keeps_base.
    + by apply IH.
Qed.

Lemma chunk_markdown_base
    (markdown_split_text :
       list (str * string) → bool → str → outcome (list Document))
    (recursive_split_text : nat → nat → list str → str → outcome (list str))
    (base : gmap string str) (markdown_content : str) (chunks : list Document) :
  base !! "section"%string = None →
  chunk_markdown markdown_split_text recursive_split_text base markdown_content
  = Ok chunks →
  Forall (λ chunk, base ⊆ metadata chunk) chunks.
Proof.
  intros Hsec. unfold chunk_markdown.
  destruct (markdown_split_text _ _ _) as [[|split splits]|].
  - apply (create_documents_metadata _ (λ m, base ⊆ m)). by repeat constructor.
  - by apply header_chunks_base.
  - apply (create_documents_metadata _ (λ m, base ⊆ m)). by repeat constructor.
Qed.

Lemma valid_chunks_metadata (is_word : char → bool)
    (Q : gmap string str → Prop) (chunks : list Document) :
  Forall (λ chunk, Q (metadata chunk)) chunks →
  Forall (λ chunk, Q (metadata chunk)) (valid_chunks is_word chunks).
Proof.
  induction 1 as [|chunk chunks HQ _ IH]; simpl; [constructor |].
  destruct (valid_content _ _); [by constructor | done].
Qed.

Section ScraperMore.

Variable lower : str → str.
Variable is_word : char → bool.
Variable urlparse : str → str * str.
Variable robot_file_parser : str → RobotFileParser.
Variable goto : str → outcome Page.
Variable handle : str → outcome str.
Variable markdown_split_text :
  list (str * string) → bool → str → outcome (list Document).
Variable recursive_split_text :
  nat → nat → list str → str → outcome (list str).

Local Abbreviation scrape :=
  (scrape_and_process_url lower is_word urlparse robot_file_parser goto handle
     markdown_split_text recursive_split_text).

(** Every chunk that [scrape_and_process_url] returns carries the base
    metadata of its page: the URL as [source], [markdown] as
    [content_type], and the title, description and selector that the
    fetch gave; what the header splitter wrote under these keys is
    overwritten. *)
Theorem scrape_base_metadata (url : str) (result : list Document) :
  scrape url = Some result →
  ∃ html selector_used page_title page_description,
    fetch goto url = Ok (html, selector_used, page_title, page_description)
    ∧ Forall (λ chunk,
                base_metadata url page_title page_description selector_used
                ⊆ metadata chunk
                ∧ metadata chunk !! "source"%string = Some url
                ∧ metadata chunk !! "content_type"%string = Some (u "markdown"))
        result.
Proof using Type.
  unfold scrape_and_process_url, scrape_body.
  destruct (check_robots_txt _ _ _); [| discriminate].
  destruct (fetch goto url) as [[[[html sel] t] d]|]; [| discriminate].
  cbn [mbind outcome_bind]. destruct html as [|c html]; [discriminate |].
  destruct (handle _) as [md|]; [| discriminate]. cbn [mbind outcome_bind].
  destruct (_ || _); [discriminate |].
  destruct (chunk_markdown _ _ _ _) as [chunks|] eqn:Hc; [| discriminate].
  cbn [mbind outcome_bind].
  destruct (valid_chunks is_word chunks) as [|v vs] eqn:Hv; [discriminate |].
  intros [= <-]. exists (c :: html), sel, t, d. split; [done |].
  apply chunk_markdown_base in Hc; [| apply base_metadata_section].
  apply (valid_chunks_metadata is_word) in Hc. rewrite Hv in Hc.
  eapply Forall_impl; [exact Hc |]. intros chunk Hsub. split; [done |].
  split; (eapply lookup_weaken; [| exact Hsub]); unfold base_metadata.
  - apply lookup_insert_eq.
  - do 4 (rewrite lookup_insert_ne by done). apply lookup_singleton_eq.
Qed.

End ScraperMore.

Lemma scrape_base_metadata_witness :
  ∃ html selector_used page_title page_description,
    fetch (page_with (letters_html 100)) example_url
    = Ok (html, selector_used, page_title, page_description)
    ∧ Forall (λ chunk,
                base_metadata example_url page_title page_description
                  selector_used ⊆ metadata chunk
                ∧ metadata chunk !! "source"%string = Some example_url
                ∧ metadata chunk !! "content_type"%string = Some (u "markdown"))
        [mkDocument (letters 100) example_base].
Proof.
  apply (scrape_base_metadata ascii_lower ascii_word example_urlparse
           allowing_parser (page_with (letters_html 100))
           (handle_to (letters_markdown 100))
           (split_to [mkDocument (letters 100) ∅]) one_piece example_url
           [mkDocument (letters 100) example_base]).
  vm_compute. reflexivity.
Defined.

(** ** The vector store *)

Lemma bfilter_all {A : Type} (f : A → bool) (l : list A) :
  Forall (λ x, f x = true) l → List.filter f l = l.
Proof.
  induction 1 as [|x l Hx _ IH]; [reflexivity |]. simpl. by rewrite Hx, IH.
Qed.

Lemma valid_chunk_meaningful (doc : Document) :
  strip (page_content doc) = page_content doc →
  50 < length (page_content doc) →
  meaningful doc = true.
Proof. unfold meaningful. intros -> H. apply Nat.ltb_lt. lia. Qed.

Section RagProps.

Variable Embeddings : Type.
Variable VectorStore : Type.
Variable HuggingFaceEmbeddings : str → outcome Embeddings.
Variable from_documents : list Document → Embeddings → outcome VectorStore.
Variable makedirs_save_local : VectorStore → str → outcome unit.
Variable load_local : str → Embeddings → outcome VectorStore.
Variable faiss_similarity_search :
  VectorStore → str → nat → outcome (list Document).

Local Abbreviation create :=
  (create_vector_store Embeddings VectorStore from_documents).
Local Abbreviation save :=
  (save_vector_store Embeddings VectorStore makedirs_save_local).
Local Abbreviation search :=
  (similarity_search Embeddings VectorStore faiss_similarity_search).

Lemma not_meaningful (documents : list Document) :
  Forall (λ doc, length (strip (page_content doc)) ≤ 30) documents →
  List.filter meaningful documents = [].
Proof using Type.
  induction 1 as [|doc documents Hd _ IH]; [reflexivity |]. simpl.
  unfold meaningful at 1.
  by replace (30 <? _) with false by (symmetry; by apply Nat.ltb_ge).
Qed.

(** [create_vector_store] returns a store exactly when some document has
    more than 30 stripped characters and FAISS builds the index from those
    documents; then the processor holds that store. Otherwise it returns
    [None] and the processor is as before, with the store it had. *)
Theorem create_vector_store_outcome
    (self : RAGProcessor Embeddings VectorStore) (documents : list Document) :
  (∀ store, snd (create self documents) = Some store ↔
            List.filter meaningful documents ≠ []
            ∧ from_documents (List.filter meaningful documents)
                (embeddings self) = Ok store)
  ∧ (∀ store, snd (create self documents) = Some store →
              fst (create self documents)
              = mkRAGProcessor (embeddings self) (Some store))
  ∧ (snd (create self documents) = None → fst (create self documents) = self)
  ∧ (Forall (λ doc, length (strip (page_content doc)) ≤ 30) documents →
     create self documents = (self, None)).
Proof using Type.
  unfold create_vector_store.
  split; [| split; [| split]].
  - intros store. destruct (List.filter meaningful documents) as [|d ds].
    + simpl. split; [discriminate | by intros [? _]].
    + destruct (from_documents (d :: ds) (embeddings self)); simpl.
      * split; [by intros [= ->] | by intros [_ [= ->]]].
      * split; [discriminate | by intros [_ ?]].
  - intros store. destruct (List.filter meaningful documents) as [|d ds];
      [discriminate |].
    destruct (from_documents (d :: ds) (embeddings self)); simpl;
      [by intros [= ->] | discriminate].
  - destruct (List.filter meaningful documents) as [|d ds]; [done |].
    by destruct (from_documents (d :: ds) (embeddings self)).
  - intros H. by rewrite not_meaningful.
Qed.

(** On a new processor a failed [create_vector_store] leaves no store:
    [save_vector_store] then returns [False] and every
    [similarity_search] returns the empty list. *)
Theorem failed_build_has_no_store
    (processor : RAGProcessor Embeddings VectorStore)
    (documents : list Document) (path : option str) (query : str) (k : nat) :
  new_processor Embeddings VectorStore HuggingFaceEmbeddings = Ok processor →
  snd (create processor documents) = None →
  save (fst (create processor documents)) path = false
  ∧ search (fst (create processor documents)) query k = [].
Proof using Type.
  unfold new_processor.
  destruct (HuggingFaceEmbeddings _) as [model|]; [| discriminate].
  cbn [mbind outcome_bind]. intros [= <-]. unfold create_vector_store.
  destruct (List.filter meaningful documents); [done |].
  by destruct (from_documents _ _).
Qed.

End RagProps.

Lemma failed_build_has_no_store_witness :
  save_vector_store unit (list Document) list_save
    (fst (create_vector_store unit (list Document) list_index
            (mkRAGProcessor tt None) [mkDocument (letters 10) ∅]))
    None = false
  ∧ similarity_search unit (list Document) list_search
      (fst (create_vector_store unit (list Document) list_index
              (mkRAGProcessor tt None) [mkDocument (letters 10) ∅]))
      (u "What is web scraping?") 2 = [].
Proof.
  apply (failed_build_has_no_store unit (list Document) example_model
           list_index list_save list_search (mkRAGProcessor tt None)
           [mkDocument (letters 10) ∅] None (u "What is web scraping?") 2);
    reflexivity.
Defined.

(** ** The loop of [run_enhanced_scraper] *)
Section MainProps.

Variable scrape : str → outcome (option (list Document)).
Variable io : file_io.

Local Abbreviation step := (process_url scrape io).

Lemma process_url_cases (st : scrape_state) (url : str) :
  step st url = failed st
  ∨ ∃ processed_chunks,
      processed_chunks ≠ []
      ∧ scrape url = Ok (Some processed_chunks)
      ∧ step st url
        = mkScrapeState (all_chunks st ++ processed_chunks)
            (S (successful_scrapes st)) (failed_scrapes st)
            (total_chunks st + length processed_chunks).
Proof using Type.
  unfold process_url.
  destruct (scrape url) as [[[|chunk chunks]|]|]; auto.
  destruct (save_docs_to_json _ _ _) as [[written n]|]; auto.
  destruct (0 <? n); auto. right. by exists (chunk :: chunks).
Qed.

Lemma scrape_loop_invariant (st : scrape_state) (urls : list str) :
  successful_scrapes (foldl step st urls) + failed_scrapes (foldl step st urls)
  = successful_scrapes st + failed_scrapes st + length urls
  ∧ (total_chunks st = length (all_chunks st) →
     total_chunks (foldl step st urls)
     = length (all_chunks (foldl step st urls)))
  ∧ ((successful_scrapes st = 0 ↔ all_chunks st = []) →
     (successful_scrapes (foldl step st urls) = 0
      ↔ all_chunks (foldl step st urls) = []))
  ∧ (Forall (λ chunk, ∃ url result, scrape url = Ok (Some result)
                                    ∧ chunk ∈ result) (all_chunks st) →
     Forall (λ chunk, ∃ url result, url ∈ urls
                                    ∧ scrape url = Ok (Some result)
                                    ∧ chunk ∈ result ∨ chunk ∈ all_chunks st)
       (all_chunks (foldl step st urls))).
Proof using Type.
  revert st. induction urls as [|url urls IH]; intros st.
  - simpl. split; [lia |]. split; [done |]. split; [done |].
    intros _. apply Forall_forall. intros chunk Hin.
    exists [], []. by right.
  - simpl foldl. destruct (IH (step st url)) as [H1 [H2 [H3 H4]]].
    destruct (process_url_cases st url) as [E | [chunks [Hne [Hs E]]]];
      rewrite E in *; clear E.
    + simpl in *. split; [| split; [| split]].
      * lia.
      * auto.
      * auto.
      * intros H. specialize (H4 H). eapply Forall_impl; [exact H4 |].
        intros chunk [u0 [r [[Hin [? ?]] | Hin]]]; exists u0, r.
        -- left. split; [by right | done].
        -- by right.
    + simpl in *. split; [| split; [| split]].
      * lia.
      * intros H. apply H2. rewrite length_app. lia.
      * intros _. apply H3. split; [lia |].
        intros H. by apply app_eq_nil in H as [_ ?].
      * intros H.
        assert (Forall (λ chunk, ∃ url0 result,
                          scrape url0 = Ok (Some result) ∧ chunk ∈ result)
                  (all_chunks st ++ chunks)) as H'.
        { apply Forall_app. split; [done |]. apply Forall_forall.
          intros chunk Hin. by exists url, chunks. }
        specialize (H4 H'). eapply Forall_impl; [exact H4 |].
        intros chunk [u0 [r [[Hin [? ?]] | Hin]]].
        -- exists u0, r. left. split; [by right | done].
        -- apply elem_of_app in Hin as [Hin | Hin].
           ++ exists u0, r. by right.
           ++ exists url, chunks. left. split; [by left | done].
Qed.

(** After the loop every URL has been counted once, as a success or as a
    failure; [total_chunks] is the number of collected chunks; and no
    chunk has been collected exactly when no URL succeeded, which is when
    the run stops before building the vector store. *)
Theorem scrape_all_accounting (urls : list str) :
  successful_scrapes (scrape_all scrape io urls)
  + failed_scrapes (scrape_all scrape io urls) = length urls
  ∧ total_chunks (scrape_all scrape io urls)
    = length (all_chunks (scrape_all scrape io urls))
  ∧ (successful_scrapes (scrape_all scrape io urls) = 0
     ↔ all_chunks (scrape_all scrape io urls) = []).
Proof using Type.
  destruct (scrape_loop_invariant initial_state urls) as [H1 [H2 [H3 _]]].
  unfold scrape_all. simpl in *. split; [lia |]. split; [by apply H2 |].
  by apply H3.
Qed.

(** Every collected chunk is a chunk of the result that
    [scrape_and_process_url] gave for one of the URLs. *)
Theorem scrape_all_provenance (urls : list str) :
  Forall (λ chunk, ∃ url result, url ∈ urls
                                 ∧ scrape url = Ok (Some result)
                                 ∧ chunk ∈ result)
    (all_chunks (scrape_all scrape io urls)).
Proof using Type.
  destruct (scrape_loop_invariant initial_state urls) as [_ [_ [_ H]]].
  specialize (H ltac:(constructor)). eapply Forall_impl; [exact H |].
  intros chunk [url [result [? | Hin]]]; [by exists url, result |].
  inversion Hin.
Qed.

End MainProps.

(** ** More on [create_rag_summary] *)

Lemma size_list_to_set_le (l : list str) :
  size (list_to_set l : gset str) ≤ length l.
Proof.
  induction l as [|x l IH].
  - apply Nat.eq_le_incl. apply (size_empty (C:=gset str)).
  - rewrite list_to_set_cons, size_union_alt, size_singleton. simpl length.
    pose proof (subseteq_size (C:=gset str)
                  (list_to_set l ∖ {[x]}) (list_to_set l)
                  ltac:(by apply subseteq_difference_l)). lia.
Qed.

Lemma py_sum_bounds (m M : nat) (l : list nat) :
  Forall (λ y, m ≤ y ∧ y ≤ M) l →
  length l * m ≤ py_sum l ∧ py_sum l ≤ length l * M.
Proof.
  induction 1 as [|y l [? ?] _ [? ?]]; simpl; [lia |].
  unfold py_sum in *. simpl. lia.
Qed.

Lemma py_sum_perm (l k : list nat) : l ≡ₚ k → py_sum l = py_sum k.
Proof.
  unfold py_sum. induction 1; simpl; lia.
Qed.

(** The numbers of a summary bound each other: there is one source at
    least and one for each chunk at most, the listed sources are that
    many and distinct, the minimum is at most the maximum, and the total
    lies between count times minimum and count times maximum. *)
Theorem create_rag_summary_bounds (first : Document) (others : list Document) :
  ∃ s, create_rag_summary (first :: others) = Summary s
    ∧ 1 ≤ unique_sources s ∧ unique_sources s ≤ total_documents s
    ∧ length (sources s) = unique_sources s ∧ NoDup (sources s)
    ∧ min_chunk_length (stats s) ≤ max_chunk_length (stats s)
    ∧ total_documents s * min_chunk_length (stats s)
      ≤ total_characters (stats s)
    ∧ total_characters (stats s)
      ≤ total_documents s * max_chunk_length (stats s).
Proof.
  eexists. split; [reflexivity |].
  cbn [total_documents unique_sources sources stats min_chunk_length
       max_chunk_length total_characters].
  set (lens := map (λ chunk, length (page_content chunk)) others).
  destruct (min_from_spec (length (page_content first)) lens) as [Hmin Hmin_in].
  destruct (max_from_spec (length (page_content first)) lens) as [Hmax _].
  set (srcs := map source_of (first :: others)).
  assert (Forall (λ y, min_from (length (page_content first)) lens ≤ y
                       ∧ y ≤ max_from (length (page_content first)) lens)
            (length (page_content first) :: lens)) as Hboth.
  { rewrite Forall_forall in Hmin, Hmax. apply Forall_forall. intros y Hy.
    split; [by apply Hmin | by apply Hmax]. }
  pose proof (py_sum_bounds _ _ _ Hboth) as [Hlo Hhi].
  change (length (page_content first) :: lens)
    with (map (λ chunk, length (page_content chunk)) (first :: others)) in *.
  rewrite length_map in Hlo, Hhi.
  split; [| split; [| split; [| split; [| split; [| split]]]]].
  - assert (source_of first ∈ (list_to_set srcs : gset str)) as Hin
      by (apply elem_of_list_to_set; by left).
    destruct (size (list_to_set srcs : gset str)) eqn:Hsz; [| lia].
    apply size_empty_inv in Hsz. rewrite Hsz in Hin.
    by apply not_elem_of_empty in Hin.
  - pose proof (size_list_to_set_le srcs) as H. subst srcs.
    by rewrite length_map in H.
  - reflexivity.
  - apply NoDup_elements.
  - rewrite Forall_forall in Hboth.
    destruct (Hboth (length (page_content first))) as [? ?]; [by left | lia].
  - exact Hlo.
  - exact Hhi.
Qed.

(** The summary does not depend on the order of the chunks, except for
    the order in which [sources] lists the sources: two lists with the
    same chunks in another order give the same counts and the same
    statistics, and the same sources, listed in some order. *)
Theorem create_rag_summary_permutation (chunks chunks' : list Document) :
  chunks ≡ₚ chunks' →
  match create_rag_summary chunks, create_rag_summary chunks' with
  | Summary s, Summary s' =>
      total_documents s = total_documents s'
      ∧ unique_sources s = unique_sources s'
      ∧ sources s ≡ₚ sources s'
      ∧ stats s = stats s'
      ∧ ready_for_rag s = ready_for_rag s'
      ∧ embedding_compatible s = embedding_compatible s'
  | SummaryError message, SummaryError message' => message = message'
  | _, _ => False
  end.
Proof.
  intros Hp. destruct chunks as [|c cs], chunks' as [|c' cs'].
  - reflexivity.
  - by apply Permutation_nil_cons in Hp.
  - symmetry in Hp. by apply Permutation_nil_cons in Hp.
  - unfold create_rag_summary.
    set (lens := λ l : list Document,
                   map (λ chunk, length (page_content chunk)) l).
    assert (lens (c :: cs) ≡ₚ lens (c' :: cs')) as Hl
      by (unfold lens; by apply fmap_Permutation).
    assert (py_sum (lens (c :: cs)) = py_sum (lens (c' :: cs'))) as Hsum
      by by apply py_sum_perm.
    assert (length (c :: cs) = length (c' :: cs')) as Hlen
      by by apply Permutation_length.
    assert ((list_to_set (map source_of (c :: cs)) : gset str)
            = list_to_set (map source_of (c' :: cs'))) as Hsrc.
    { apply list_to_set_perm_L. by apply fmap_Permutation. }
    assert (min_from (length (page_content c)) (lens cs)
            = min_from (length (page_content c')) (lens cs')) as Hmin.
    { destruct (min_from_spec (length (page_content c)) (lens cs)) as [A1 A2].
      destruct (min_from_spec (length (page_content c')) (lens cs'))
        as [B1 B2].
      change (_ :: lens cs) with (lens (c :: cs)) in *.
      change (_ :: lens cs') with (lens (c' :: cs')) in *.
      rewrite Forall_forall in A1, B1.
      rewrite Hl in A2. rewrite <- Hl in B2.
      specialize (A1 _ B2). specialize (B1 _ A2). lia. }
    assert (max_from (length (page_content c)) (lens cs)
            = max_from (length (page_content c')) (lens cs')) as Hmax.
    { destruct (max_from_spec (length (page_content c)) (lens cs)) as [A1 A2].
      destruct (max_from_spec (length (page_content c')) (lens cs'))
        as [B1 B2].
      change (_ :: lens cs) with (lens (c :: cs)) in *.
      change (_ :: lens cs') with (lens (c' :: cs')) in *.
      rewrite Forall_forall in A1, B1.
      rewrite Hl in A2. rewrite <- Hl in B2.
      specialize (A1 _ B2). specialize (B1 _ A2). lia. }
    assert (length (lens (c :: cs)) = length (lens (c' :: cs'))) as Hlen'
      by by apply Permutation_length.
    cbn [total_documents unique_sources sources stats ready_for_rag
         embedding_compatible].
    fold (lens cs) (lens cs') (lens (c :: cs)) (lens (c' :: cs')).
    rewrite Hmin, Hmax, Hsum, Hlen, Hlen'.
    split; [reflexivity |]. split; [by rewrite Hsrc |].
    split; [| by repeat split].
    apply NoDup_Permutation; [apply NoDup_elements | apply NoDup_elements |].
    intros source. rewrite !elem_of_elements, !elem_of_list_to_set.
    by rewrite Hp.
Qed.

Lemma create_rag_summary_permutation_witness :
  match
    create_rag_summary
      [mkDocument (u "a") {[ "source"%string := u "x" ]};
       mkDocument (u "bb") {[ "source"%string := u "y" ]}],
    create_rag_summary
      [mkDocument (u "bb") {[ "source"%string := u "y" ]};
       mkDocument (u "a") {[ "source"%string := u "x" ]}]
  with
  | Summary s, Summary s' =>
      total_documents s = total_documents s'
      ∧ unique_sources s = unique_sources s'
      ∧ sources s ≡ₚ sources s'
      ∧ stats s = stats s'
      ∧ ready_for_rag s = ready_for_rag s'
      ∧ embedding_compatible s = embedding_compatible s'
  | SummaryError message, SummaryError message' => message = message'
  | _, _ => False
  end.
Proof.
  apply create_rag_summary_permutation. apply perm_swap.
Defined.

(** ** The run as a whole *)
Section RunProps.

Variable lower : str → str.
Variable is_word : char → bool.
Variable urlparse : str → str * str.
Variable robot_file_parser : str → RobotFileParser.
Variable goto : str → outcome Page.
Variable handle : str → outcome str.
Variable markdown_split_text :
  list (str * string) → bool → str → outcome (list Document).
Variable recursive_split_text :
  nat → nat → list str → str → outcome (list str).
Variable io : file_io.
Variable makedirs_output : outcome unit.
Variable dump_summary : str → rag_summary → outcome unit.
Variable Embeddings : Type.
Variable VectorStore : Type.
Variable HuggingFaceEmbeddings : str → outcome Embeddings.
Variable from_documents : list Document → Embeddings → outcome VectorStore.
Variable makedirs_save_local : VectorStore → str → outcome unit.
Variable faiss_similarity_search :
  VectorStore → str → nat → outcome (list Document).

(** The call of [scrape_and_process_url] in the loop. *)
Local Abbreviation scrape :=
  (λ url, Ok (scrape_and_process_url lower is_word urlparse robot_file_parser
                goto handle markdown_split_text recursive_split_text url)).
Local Abbreviation collected urls := (all_chunks (scrape_all scrape io urls)).

Lemma collected_valid (urls : list str) :
  Forall (λ chunk, strip (page_content chunk) = page_content chunk
                   ∧ 50 < length (page_content chunk)
                   ∧ ∃ c, c ∈ page_content chunk ∧ is_word c = true)
    (collected urls).
Proof using Type.
  destruct (scrape_loop_invariant scrape io initial_state urls)
    as [_ [_ [_ Hall]]].
  specialize (Hall ltac:(constructor)). eapply Forall_impl; [exact Hall |].
  intros chunk [url [result [[_ [Hs Hin]] | Hin]]]; [| inversion Hin].
  injection Hs as Hs.
  apply scrape_some in Hs as [_ [chunks ->]].
  pose proof (valid_chunks_valid is_word chunks) as H.
  rewrite Forall_forall in H. by apply H.
Qed.

Lemma collected_meaningful (urls : list str) :
  List.filter meaningful (collected urls) = collected urls.
Proof using Type.
  apply bfilter_all. eapply Forall_impl; [apply collected_valid |].
  intros chunk [? [? _]]. by apply valid_chunk_meaningful.
Qed.

(** Every chunk that the run collects is stripped, longer than 50
    characters and has a word character, so the filter of
    [create_vector_store] drops none of them: the index is built from all
    collected chunks. *)
Theorem collected_chunks_all_indexed (urls : list str)
    (self : RAGProcessor Embeddings VectorStore) :
  Forall (λ chunk, strip (page_content chunk) = page_content chunk
                   ∧ 50 < length (page_content chunk)
                   ∧ ∃ c, c ∈ page_content chunk ∧ is_word c = true)
    (collected urls)
  ∧ List.filter meaningful (collected urls) = collected urls
  ∧ (collected urls = []
     ∨ create_vector_store Embeddings VectorStore from_documents self
         (collected urls)
       = match from_documents (collected urls) (embeddings self) with
         | Ok store => (mkRAGProcessor (embeddings self) (Some store), Some store)
         | Raise => (self, None)
         end).
Proof using Type.
  pose proof (collected_valid urls) as Hv.
  pose proof (collected_meaningful urls) as Hf.
  split; [done |]. split; [done |].
  unfold create_vector_store. rewrite Hf.
  destruct (collected urls); [by left | by right].
Qed.

(** When the run reports success, chunks were collected, the embedding
    model was loaded and the vector store was built from all the
    collected chunks. *)
Theorem run_success_indexes_all (urls : list str) :
  run_scraper scrape io makedirs_output dump_summary Embeddings VectorStore
    HuggingFaceEmbeddings from_documents makedirs_save_local
    faiss_similarity_search urls = Ok true →
  collected urls ≠ []
  ∧ ∃ model store,
      HuggingFaceEmbeddings EMBEDDING_MODEL = Ok model
      ∧ from_documents (collected urls) model = Ok store.
Proof using Type.
  unfold run_scraper. destruct makedirs_output; [| discriminate].
  cbn [mbind outcome_bind].
  pose proof (collected_meaningful urls) as Hf.
  destruct (collected urls) as [|chunk chunks] eqn:Hc; [discriminate |].
  unfold rag_integration, new_processor.
  destruct (HuggingFaceEmbeddings EMBEDDING_MODEL) as [model|];
    cbn [mbind outcome_bind]; [| discriminate].
  unfold create_vector_store. rewrite Hf. cbn [embeddings].
  destruct (from_documents (chunk :: chunks) model) as [store|] eqn:Hs;
    cbn [fst snd]; [| discriminate].
  intros _. split; [done |]. by exists model, store.
Qed.

End RunProps.

Lemma run_success_indexes_all_witness :
  all_chunks
    (scrape_all
       (λ url,
          Ok (scrape_and_process_url ascii_lower ascii_word example_urlparse
                allowing_parser (page_with (letters_html 100))
                (handle_to (letters_markdown 100))
                (split_to [mkDocument (letters 100) ∅]) one_piece url))
       {| makedirs_dirname := λ _, Ok tt; open_and_dump := λ _ _, Ok tt |}
       [example_url]) ≠ []
  ∧ ∃ model store,
      example_model EMBEDDING_MODEL = Ok model
      ∧ list_index
          (all_chunks
             (scrape_all
                (λ url,
                   Ok (scrape_and_process_url ascii_lower ascii_word
                         example_urlparse allowing_parser
                         (page_with (letters_html 100))
                         (handle_to (letters_markdown 100))
                         (split_to [mkDocument (letters 100) ∅]) one_piece
                         url))
                {| makedirs_dirname := λ _, Ok tt;
                   open_and_dump := λ _ _, Ok tt |}
                [example_url])) model = Ok store.
Proof.
  apply (run_success_indexes_all ascii_lower ascii_word example_urlparse
           allowing_parser (page_with (letters_html 100))
           (handle_to (letters_markdown 100))
           (split_to [mkDocument (letters 100) ∅]) one_piece
           {| makedirs_dirname := λ _, Ok tt; open_and_dump := λ _ _, Ok tt |}
           (Ok tt) (λ _ _, Ok tt) unit (list Document) example_model list_index
           list_save list_search [example_url]).
  vm_compute. reflexivity.
Defined.

(** ** One URL of the loop *)

(** A URL counts as a success exactly when [scrape_and_process_url] gave
    chunks and [save_docs_to_json] wrote one element or more of them to
    the file of the URL; then all its chunks are collected. In every
    other case (no chunks, an exception, a file that could not be written,
    no chunk long enough after [clean_text]) it counts as a failure and
    nothing is collected. *)
Theorem process_url_success (scrape : str → outcome (option (list Document)))
    (io : file_io) (st : scrape_state) (url : str) :
  (∃ chunks written,
     chunks ≠ [] ∧ written ≠ []
     ∧ scrape url = Ok (Some chunks)
     ∧ save_docs_to_json io chunks
         (in_output_dir (sanitize_filename url ++ u "_chunks.json"))
       = Ok (Some written, length written)
     ∧ process_url scrape io st url
       = mkScrapeState (all_chunks st ++ chunks) (S (successful_scrapes st))
           (failed_scrapes st) (total_chunks st + length chunks))
  ∨ ((∀ chunks written,
        scrape url = Ok (Some chunks) →
        save_docs_to_json io chunks
          (in_output_dir (sanitize_filename url ++ u "_chunks.json"))
        = Ok (Some written, length written) →
        chunks = [] ∨ written = [])
     ∧ process_url scrape io st url = failed st).
Proof.
  unfold process_url.
  destruct (scrape url) as [[[|chunk chunks]|]|].
  - right. split; [| reflexivity]. intros ? ? [= <-] _. by left.
  - assert (chunk :: chunks ≠ []) as Hne by done.
    revert Hne. generalize (chunk :: chunks). intros cs Hne.
    unfold save_docs_to_json.
    destruct (makedirs_dirname _ _); cbn [mbind outcome_bind].
    + destruct (cleaned_docs cs) as [|e es] eqn:Hc;
        destruct (open_and_dump _ _ _) eqn:Hd.
      * right. split; [| reflexivity]. intros ? w [= <-].
        rewrite Hc, Hd. intros [= <-]. by right.
      * right. split; [| reflexivity]. intros ? w [= <-]. by rewrite Hc, Hd.
      * left. exists cs, (e :: es). rewrite Hc, Hd. by repeat split.
      * right. split; [| reflexivity]. intros ? w [= <-]. by rewrite Hc, Hd.
    + right. split; [| reflexivity]. by intros ? w [= <-].
  - right. split; [| reflexivity]. intros ? ? [=].
  - right. split; [| reflexivity]. intros ? ? [=].
Qed.
